(** * The sync dispatcher of go-filecoin: target queue and dispatch loop

    A shallow embedding of [syncer/dispatcher.go].

    - Go slices are lists read with stdpp's lookup [!!]; an index out of
      range is a run-time panic in Go, which is the failure [None] of the
      option monad here.
    - [uint64] values ([Height], [syncReqCount], [n], [start]) are integers
      in [Z]; the only arithmetic on them, [start + n] and
      [syncReqCount++], is written with its wrap-around modulo 2^64.
    - Slice indices are natural numbers.  Go computes the parent of [j] as
      [(j - 1) / 2] on [int], which is [0] for [j = 0] (division truncates
      towards zero), as is the truncated subtraction on [nat].
    - [map[string]struct{}] is a [gset string].
    - Channels, the cancellation context and the external syncer are the
      environment of the loop: each cycle is a function of what the
      environment offers during that cycle, and what the loop does to the
      outside is recorded as a list of events. *)

From Stdlib Require Import ZArith Lia.
From Equations Require Import Equations.
From stdpp Require Import gmap strings list sorting.

Local Open Scope Z_scope.

(** Go's [uint64] arithmetic. *)
Definition uint64_modulus : Z := 2 ^ 64.
Definition wrap64 (x : Z) : Z := x mod uint64_modulus.

Section Syncer.

(** [types.TipSetKey] is declared outside the files at hand.  The queue
    uses a key only through its [String()] rendering. *)
Variable TipSetKey : Type.
Variable TipSetKey_String : TipSetKey -> string.

(** A callback is a Go [func()] that is not nil and that returns: it is
    opaque, and calling it is an event.  (Calling a nil [func()], which
    [RegisterOnProcessedCount] would accept, is outside the model.) *)
Variable Callback : Type.

(** ** Data *)

(** [block.ChainInfo], restricted to the two fields the dispatcher reads. *)
Record block_ChainInfo := mkChainInfo { Head : TipSetKey; Height : Z }.

(** [SyncRequest] embeds a [block.ChainInfo] and carries the position
    field required by [container/heap]. *)
Record SyncRequest := mkSyncRequest { ChainInfo : block_ChainInfo; index : Z }.

Definition set_index (x : Z) (r : SyncRequest) : SyncRequest :=
  {| ChainInfo := ChainInfo r; index := x |}.

(** The key under which a request is recorded in the membership set:
    [req.ChainInfo.Head.String()]. *)
Definition reqKey (r : SyncRequest) : string :=
  TipSetKey_String (Head (ChainInfo r)).

(** ** rawQueue: the [heap.Interface] instance *)

(** [type rawQueue []SyncRequest] *)
Abbreviation rawQueue := (list SyncRequest).

Definition rawQueue_Len (rq : rawQueue) : nat := length rq.

(** [rq[i].Height > rq[j].Height] *)
Definition rawQueue_Less (rq : rawQueue) (i j : nat) : option bool :=
  a ← rq !! i; b ← rq !! j;
  Some (bool_decide (Height (ChainInfo a) > Height (ChainInfo b))).

(** [rq[i], rq[j] = rq[j], rq[i]; rq[i].index = j; rq[j].index = i] *)
Definition rawQueue_Swap (rq : rawQueue) (i j : nat) : option rawQueue :=
  a ← rq !! i; b ← rq !! j;
  let rq1 := <[j:=a]> (<[i:=b]> rq) in
  let rq2 := alter (set_index (Z.of_nat j)) i rq1 in
  Some (alter (set_index (Z.of_nat i)) j rq2).

(** [syncReq.index = n; *rq = append( *rq, syncReq)] *)
Definition rawQueue_Push (rq : rawQueue) (x : SyncRequest) : rawQueue :=
  let n := length rq in
  rq ++ [set_index (Z.of_nat n) x].

(** [item := old[n-1]; item.index = -1; *rq = old[0 : n-1]] *)
Definition rawQueue_Pop (rq : rawQueue) : option (SyncRequest * rawQueue) :=
  let n := length rq in
  match n with
  | O => None
  | S m => item ← rq !! m; Some (set_index (-1) item, take m rq)
  end.

(** ** container/heap, as instantiated with [rawQueue]

    [heap.Init], [heap.Push] and [heap.Pop] are the functions of Go's
    standard library that [NewTargetQueue], [TargetQueue.Push] and
    [TargetQueue.Pop] call on the [rawQueue]. *)

(** The loop of [heap.up]:
    [for { i := (j - 1) / 2; if i == j || !h.Less(j, i) { break };
           h.Swap(i, j); j = i }]. *)
Equations? up (h : rawQueue) (j : nat) : option rawQueue by wf j lt :=
  up h j with decide (((j - 1) / 2)%nat = j) := {
    | left _ => Some h
    | right Hne with rawQueue_Less h j ((j - 1) / 2) := {
        | None => None
        | Some false => Some h
        | Some true with rawQueue_Swap h ((j - 1) / 2) j := {
            | None => None
            | Some h' => up h' ((j - 1) / 2) } } }.
Proof.
  assert ((j - 1) / 2 <= j - 1)%nat by (apply Nat.Div0.div_le_upper_bound; lia).
  lia.
Qed.

(** [j2 := j1 + 1; j2 < n && h.Less(j2, j1)]: whether the right child is
    the one to compare with the parent. *)
Definition right_child_first (h : rawQueue) (j1 n : nat) : option bool :=
  if decide (j1 + 1 < n)%nat then rawQueue_Less h (j1 + 1) j1 else Some false.

(** The loop of [heap.down], returning the heap and the final position:
    [for { j1 := 2*i + 1; if j1 >= n || j1 < 0 { break };
           j := j1; if j2 := j1 + 1; j2 < n && h.Less(j2, j1) { j = j2 };
           if !h.Less(j, i) { break }; h.Swap(i, j); i = j }].
    The test [j1 < 0] guards against [int] overflow and is never true of a
    slice index. *)
Equations? down_loop (h : rawQueue) (i n : nat) : option (rawQueue * nat)
  by wf (n - i)%nat lt :=
  down_loop h i n with decide (n <= 2 * i + 1)%nat := {
    | left _ => Some (h, i)
    | right Hlt with right_child_first h (2 * i + 1) n := {
        | None => None
        | Some b with rawQueue_Less h (if b then 2 * i + 1 + 1 else 2 * i + 1)%nat i := {
            | None => None
            | Some false => Some (h, i)
            | Some true
                with rawQueue_Swap h i (if b then 2 * i + 1 + 1 else 2 * i + 1)%nat := {
                | None => None
                | Some h' =>
                    down_loop h' (if b then 2 * i + 1 + 1 else 2 * i + 1)%nat n } } } }.
Proof. destruct b; lia. Qed.

(** [heap.down(h, i0, n)] reports whether the element moved. *)
Definition down (h : rawQueue) (i0 n : nat) : option (rawQueue * bool) :=
  '(h', i) ← down_loop h i0 n; Some (h', bool_decide (i0 < i)%nat).

(** [heap.Init]: [for i := n/2 - 1; i >= 0; i-- { down(h, i, n) }];
    [k] counts the iterations left, the next one being at [k - 1]. *)
Fixpoint heap_Init_loop (k : nat) (h : rawQueue) (n : nat) : option rawQueue :=
  match k with
  | O => Some h
  | S i => '(h', _) ← down h i n; heap_Init_loop i h' n
  end.

Definition heap_Init (h : rawQueue) : option rawQueue :=
  let n := rawQueue_Len h in
  heap_Init_loop (n / 2) h n.

(** [h.Push(x); up(h, h.Len()-1)] *)
Definition heap_Push (h : rawQueue) (x : SyncRequest) : option rawQueue :=
  let h1 := rawQueue_Push h x in
  up h1 (rawQueue_Len h1 - 1).

(** [n := h.Len() - 1; h.Swap(0, n); down(h, 0, n); return h.Pop()].
    On the empty queue Go panics in [Swap(0, -1)], and so does [Swap] at
    position 0 here. *)
Definition heap_Pop (h : rawQueue) : option (SyncRequest * rawQueue) :=
  let n := (rawQueue_Len h - 1)%nat in
  h1 ← rawQueue_Swap h 0 n;
  '(h2, _) ← down h1 0 n;
  rawQueue_Pop h2.

(** ** TargetQueue *)

Record TargetQueue := mkTargetQueue { q : rawQueue; targetSet : gset string }.

(** [NewTargetQueue]: [heap.Init] of the empty queue runs no iteration
    (see [heap_Init_nil]). *)
Definition NewTargetQueue : TargetQueue :=
  {| q := []; targetSet := ∅ |}.

Definition TargetQueue_Len (tq : TargetQueue) : nat := rawQueue_Len (q tq).

(** [TargetQueue.Push]: a request whose key is in the set is dropped. *)
Definition TargetQueue_Push (tq : TargetQueue) (req : SyncRequest)
  : option TargetQueue :=
  if decide (reqKey req ∈ targetSet tq) then Some tq
  else
    q' ← heap_Push (q tq) req;
    Some {| q := q'; targetSet := {[reqKey req]} ∪ targetSet tq |}.

(** [TargetQueue.Pop]: the second component is Go's second result; on
    the empty queue the first one is the zero value [SyncRequest{}],
    which needs a zero [TipSetKey]. *)
Variable zeroTipSetKey : TipSetKey.

Definition zeroSyncRequest : SyncRequest :=
  {| ChainInfo := {| Head := zeroTipSetKey; Height := 0 |}; index := 0 |}.

Definition TargetQueue_Pop (tq : TargetQueue)
  : option (SyncRequest * bool * TargetQueue) :=
  if decide (TargetQueue_Len tq = 0%nat) then Some (zeroSyncRequest, false, tq)
  else
    '(req, q') ← heap_Pop (q tq);
    let popKey := reqKey req in
    Some (req, true, {| q := q'; targetSet := targetSet tq ∖ {[popKey]} |}).

(** [for _, syncReq := range produced { d.targetQ.Push(syncReq) }] *)
Fixpoint pushAll (tq : TargetQueue) (produced : list SyncRequest)
  : option TargetQueue :=
  match produced with
  | [] => Some tq
  | syncReq :: rest => tq' ← TargetQueue_Push tq syncReq; pushAll tq' rest
  end.

(** ** Dispatcher *)

Record onProcessedCountCb := mkOnProcessedCountCb { cb : Callback; n : Z; start : Z }.

(** A value received from the control channel is an [interface{}]: either
    an [onProcessedCountCb] or a value of some other dynamic type, of which
    the loop only prints the type ([%T]). *)
Inductive ControlMsg :=
| CtrlOnProcessedCountCb (msg : onProcessedCountCb)
| CtrlOther (dynType : string).

(** A Go [error]: [None] is [nil]. *)
Definition error := option string.

(** What the loop does to the outside. *)
Inductive Event :=
| EvCallback (f : Callback)
| EvHandleNewTipSet (ci : block_ChainInfo) (isCatchUp : bool)
| EvLogSyncFailed (err : string)
| EvLogUnknownControl (dynType : string).

(** The fields of [Dispatcher] that the loop owns.  The channels
    [production] and [control] and the [catchupSyncer] belong to the
    environment, see [CycleEnv]. *)
Record Dispatcher := mkDispatcher {
  targetQ : TargetQueue;
  onProcessedCountCbs : list onProcessedCountCb;
  syncReqCount : Z
}.

Definition NewDispatcher : Dispatcher :=
  {| targetQ := NewTargetQueue; onProcessedCountCbs := []; syncReqCount := 0 |}.

(** [receive]: [d.production <- SyncRequest{ChainInfo: *ci}; return nil].
    The value sent on the production channel, whose position field has its
    zero value, and the error returned to the caller. *)
Definition receive (ci : block_ChainInfo) : SyncRequest * error :=
  ({| ChainInfo := ci; index := 0 |}, None).

(** The three entry points of the producers. *)
Definition ReceiveHello (ci : block_ChainInfo) : SyncRequest * error := receive ci.
Definition ReceiveOwnBlock (ci : block_ChainInfo) : SyncRequest * error := receive ci.
Definition ReceiveGossipBlock (ci : block_ChainInfo) : SyncRequest * error := receive ci.

(** The [range] loop of [maybeFireCbs] from position [i] on, with the
    local [removedIdxs] and the calls made so far. *)
Fixpoint maybeFireCbs_loop (count : Z) (i : nat) (cbs : list onProcessedCountCb)
    (removedIdxs : list nat) (evs : list Event) : list nat * list Event :=
  match cbs with
  | [] => (removedIdxs, evs)
  | opcCb :: rest =>
      if bool_decide (wrap64 (start opcCb + n opcCb) = count)
      then maybeFireCbs_loop count (S i) rest
             (removedIdxs ++ [i]) (evs ++ [EvCallback (cb opcCb)])
      else maybeFireCbs_loop count (S i) rest removedIdxs evs
  end.

(** [maybeFireCbs]: the local [removedIdxs] is dropped when the function
    returns, and the dispatcher is the one it was given. *)
Definition maybeFireCbs (d : Dispatcher) : Dispatcher * list Event :=
  let '(_, evs) :=
    maybeFireCbs_loop (syncReqCount d) 0 (onProcessedCountCbs d) [] [] in
  (d, evs).

(** [receiveCtrl]: the type switch on the control message. *)
Definition receiveCtrl (d : Dispatcher) (i : ControlMsg)
  : Dispatcher * list Event :=
  match i with
  | CtrlOnProcessedCountCb msg =>
      let msg' := {| cb := cb msg; n := n msg; start := syncReqCount d |} in
      ({| targetQ := targetQ d;
          onProcessedCountCbs := onProcessedCountCbs d ++ [msg'];
          syncReqCount := syncReqCount d |}, [])
  | CtrlOther dynType => (d, [EvLogUnknownControl dynType])
  end.

(** [RegisterOnProcessedCount(count, cb)] sends this value on [control]. *)
Definition RegisterOnProcessedCount (count : Z) (f : Callback) : ControlMsg :=
  CtrlOnProcessedCountCb {| cb := f; n := count; start := 0 |}.

(** [drainProduced]: [n := len(d.production)] receives from the buffer
    [chan], oldest value first. *)
Fixpoint drainProduced_loop (k : nat) (chan produced : list SyncRequest)
  : list SyncRequest :=
  match k, chan with
  | S k', next :: chan' => drainProduced_loop k' chan' (produced ++ [next])
  | _, _ => produced
  end.

Definition drainProduced (chan : list SyncRequest) : list SyncRequest :=
  drainProduced_loop (length chan) chan [].

(** What the environment offers during one cycle of the loop. *)
Record CycleEnv := mkCycleEnv {
  (** [syncingCtx.Done()] is closed when the loop looks at it *)
  env_done : bool;
  (** the value of a sender waiting on [d.control], if there is one *)
  env_ctrl : option ControlMsg;
  (** the value ready on [d.production], if there is one ... *)
  env_first : option SyncRequest;
  (** ... and the buffer of the channel once that one is taken *)
  env_buffered : list SyncRequest;
  (** the syncer: the result of [HandleNewTipSet] *)
  env_HandleNewTipSet : block_ChainInfo -> bool -> error;
  (** the value that ends the idle wait; [None] when no producer sends *)
  env_extra : option SyncRequest
}.

Inductive LoopStatus :=
| Running (last : option SyncRequest)   (* next cycle, with the local [last] *)
| Stopped                                (* [return] on cancellation *)
| Waiting.                               (* blocked on [d.production] *)

Definition withQueue (d : Dispatcher) (tq : TargetQueue) : Dispatcher :=
  {| targetQ := tq;
     onProcessedCountCbs := onProcessedCountCbs d;
     syncReqCount := syncReqCount d |}.

(** The control step of a cycle: a non-blocking receive on [d.control]. *)
Definition controlStep (d : Dispatcher) (env : CycleEnv) : Dispatcher * list Event :=
  match env_ctrl env with
  | Some ctrl => receiveCtrl d ctrl
  | None => (d, [])
  end.

(** The requests gathered in one cycle: the one left by the idle wait of
    the cycle before, then what the production channel holds. *)
Definition gather (last : option SyncRequest) (env : CycleEnv)
  : list SyncRequest :=
  let produced := match last with Some l => [l] | None => [] end in
  match env_first env with
  | Some first => (produced ++ [first]) ++ drainProduced (env_buffered env)
  | None => produced
  end.

(** One iteration of the [for] loop of [Start]. *)
Definition cycle (d : Dispatcher) (last : option SyncRequest) (env : CycleEnv)
  : option (Dispatcher * LoopStatus * list Event) :=
  let '(d1, evs1) := maybeFireCbs d in
  if env_done env then Some (d1, Stopped, evs1)
  else
    let '(d2, evs2) := controlStep d1 env in
    let produced := gather last env in
    tq ← pushAll (targetQ d2) produced;
    '(syncReq, popped, tq') ← TargetQueue_Pop tq;
    if popped : bool then
      let err := env_HandleNewTipSet env (ChainInfo syncReq) true in
      let evs3 :=
        EvHandleNewTipSet (ChainInfo syncReq) true ::
        match err with Some e => [EvLogSyncFailed e] | None => [] end in
      Some ({| targetQ := tq';
               onProcessedCountCbs := onProcessedCountCbs d2;
               syncReqCount := wrap64 (syncReqCount d2 + 1) |},
            Running None, evs1 ++ evs2 ++ evs3)
    else
      match env_extra env with
      | Some extra => Some (withQueue d2 tq', Running (Some extra), evs1 ++ evs2)
      | None => Some (withQueue d2 tq', Waiting, evs1 ++ evs2)
      end.

(** The loop over the cycles the environment describes. *)
Fixpoint run (envs : list CycleEnv) (d : Dispatcher) (last : option SyncRequest)
  : option (Dispatcher * LoopStatus * list Event) :=
  match envs with
  | [] => Some (d, Running last, [])
  | env :: envs' =>
      '(d', st, evs) ← cycle d last env;
      match st with
      | Running last' =>
          '(d'', st', evs') ← run envs' d' last'; Some (d'', st', evs ++ evs')
      | _ => Some (d', st, evs)
      end
  end.

(** Popping until [Pop] reports an empty queue; [fuel] bounds the number
    of pops, and [Len] pops empty the queue (see [popAll_drains]). *)
Fixpoint popAll (fuel : nat) (tq : TargetQueue)
  : option (list SyncRequest * TargetQueue) :=
  match fuel with
  | O => Some ([], tq)
  | S fuel' =>
      '(req, popped, tq') ← TargetQueue_Pop tq;
      if popped : bool then
        '(rest, tq'') ← popAll fuel' tq'; Some (req :: rest, tq'')
      else Some ([], tq')
  end.

(** * Vocabulary of the properties *)

(** The chain infos of a queue: what a request is, apart from the position
    field that [Swap] rewrites. *)
Definition infos (h : rawQueue) : list block_ChainInfo := ChainInfo <$> h.

Definition parent (j : nat) : nat := ((j - 1) / 2)%nat.

(** Where both positions are occupied, the entry at [p] is at least as
    high as the entry at [k]. *)
Definition dominates (l : list block_ChainInfo) (p k : nat) : Prop :=
  ∀ a b, l !! p = Some a → l !! k = Some b → Height b ≤ Height a.

(** The first [m] entries form a max-heap on [Height]. *)
Definition heap_ordered_upto (m : nat) (l : list block_ChainInfo) : Prop :=
  ∀ k, (0 < k < m)%nat → dominates l (parent k) k.

Definition heap_ordered (l : list block_ChainInfo) : Prop :=
  heap_ordered_upto (length l) l.

(** The heap order with a possible violation between [j] and its parent:
    what [up] repairs. *)
Definition up_inv (l : list block_ChainInfo) (j : nat) : Prop :=
  (∀ k, (0 < k)%nat → k ≠ j → dominates l (parent k) k) ∧
  (∀ k, (0 < k)%nat → parent k = j → (0 < j)%nat → dominates l (parent j) k).

(** The heap order below [m] with a possible violation between [i] and its
    children: what [down] repairs. *)
Definition down_inv (l : list block_ChainInfo) (m i : nat) : Prop :=
  (∀ k, (0 < k < m)%nat → parent k ≠ i → dominates l (parent k) k) ∧
  (∀ k, (0 < k < m)%nat → parent k = i → (0 < i)%nat → dominates l (parent i) k).

(** The entries from position [lo] on, below [m], are at least as high
    as their children: what [heap.Init] has built when its loop is at
    position [lo]. *)
Definition heap_from (lo m : nat) (l : list block_ChainInfo) : Prop :=
  ∀ k, (0 < k < m)%nat → (lo <= parent k)%nat → dominates l (parent k) k.

(** The same with a possible violation between [i] and its children. *)
Definition down_inv_from (lo : nat) (l : list block_ChainInfo) (m i : nat) : Prop :=
  (∀ k, (0 < k < m)%nat → (lo <= parent k)%nat → parent k ≠ i →
        dominates l (parent k) k) ∧
  (∀ k, (0 < k < m)%nat → parent k = i → (lo < i)%nat →
        dominates l (parent i) k).

(** The keys of the requests in a queue. *)
Definition keys (h : rawQueue) : list string := reqKey <$> h.

Definition infoKey (c : block_ChainInfo) : string := TipSetKey_String (Head c).

(** The representation invariant of [TargetQueue]: the slice is a heap,
    its requests have pairwise different keys, and the membership set holds
    exactly these keys. *)
Record TargetQueue_inv (tq : TargetQueue) : Prop := {
  inv_heap : heap_ordered (infos (q tq));
  inv_nodup : NoDup (keys (q tq));
  inv_set : ∀ k, k ∈ targetSet tq ↔ k ∈ keys (q tq)
}.

(** The queues that [Push] and [Pop] build from [NewTargetQueue]. *)
Inductive reachable : TargetQueue → Prop :=
| reachable_new : reachable NewTargetQueue
| reachable_push tq req tq' :
    reachable tq → TargetQueue_Push tq req = Some tq' → reachable tq'
| reachable_pop tq req popped tq' :
    reachable tq → TargetQueue_Pop tq = Some (req, popped, tq') → reachable tq'.

Definition heights (l : list SyncRequest) : list Z :=
  (λ r, Height (ChainInfo r)) <$> l.

Definition heads (l : list SyncRequest) : list TipSetKey :=
  (λ r, Head (ChainInfo r)) <$> l.

(** Every height is at least the ones after it ... *)
Definition descending (hs : list Z) : Prop :=
  StronglySorted (λ x y, y ≤ x) hs.

(** ... or greater than the ones after it. *)
Definition strictly_descending (hs : list Z) : Prop :=
  StronglySorted (λ x y, y < x) hs.

(** The test of [maybeFireCbs]: [opcCb.start+opcCb.n == d.syncReqCount]. *)
Definition fires_at (count : Z) (c : onProcessedCountCb) : bool :=
  bool_decide (wrap64 (start c + n c) = count).

Definition is_sync_call (e : Event) : bool :=
  match e with EvHandleNewTipSet _ _ => true | _ => false end.

(** * Properties *)

(** ** The heap order *)

Lemma parent_lt k : (0 < k)%nat → (parent k < k)%nat.
Proof.
  intros Hk. unfold parent.
  assert ((k - 1) / 2 <= k - 1)%nat by (apply Nat.Div0.div_le_upper_bound; lia).
  lia.
Qed.

Lemma parent_le k : (parent k <= k)%nat.
Proof.
  destruct (decide (k = 0%nat)) as [->|]; [by compute|].
  pose proof (parent_lt k). lia.
Qed.

Lemma parent_children k i :
  (0 < k)%nat → parent k = i ↔ k = (2 * i + 1)%nat ∨ k = (2 * i + 1 + 1)%nat.
Proof.
  intros Hk. unfold parent.
  pose proof (Nat.div_mod_eq (k - 1) 2) as Hd.
  pose proof (Nat.mod_upper_bound (k - 1) 2). lia.
Qed.

Lemma infos_length h : length (infos h) = length h.
Proof. apply length_fmap. Qed.

Lemma rawQueue_Less_infos h i j :
  rawQueue_Less h i j =
  a ← infos h !! i; b ← infos h !! j; Some (bool_decide (Height a > Height b)).
Proof.
  unfold rawQueue_Less, infos. rewrite !list_lookup_fmap.
  destruct (h !! i), (h !! j); reflexivity.
Qed.

Lemma infos_alter_index x i h : infos (alter (set_index x) i h) = infos h.
Proof.
  unfold infos. rewrite (list_fmap_alter _ _ id).
  - apply list_eq. intros k. rewrite list_lookup_alter.
    case_decide; subst; by destruct (_ !! _).
  - by apply Forall_forall.
Qed.

Lemma rawQueue_Swap_infos h i j h' :
  rawQueue_Swap h i j = Some h' →
  ∃ a b, infos h !! i = Some a ∧ infos h !! j = Some b ∧
         infos h' = <[j:=a]> (<[i:=b]> (infos h)).
Proof.
  unfold rawQueue_Swap. intros Hs.
  destruct (h !! i) as [a|] eqn:Ha; [simpl in Hs|done].
  destruct (h !! j) as [b|] eqn:Hb; [simpl in Hs|done].
  injection Hs as <-. exists (ChainInfo a), (ChainInfo b).
  rewrite !infos_alter_index. unfold infos.
  rewrite !list_lookup_fmap, Ha, Hb, !list_fmap_insert. done.
Qed.

Lemma rawQueue_Swap_is_Some h i j :
  (i < length h)%nat → (j < length h)%nat → is_Some (rawQueue_Swap h i j).
Proof.
  intros [a Ha]%lookup_lt_is_Some [b Hb]%lookup_lt_is_Some.
  unfold rawQueue_Swap. rewrite Ha, Hb. simpl. eauto.
Qed.

(** Reading a list after the exchange of two of its entries. *)
Lemma lookup_exchange (l : list block_ChainInfo) i j a b k :
  l !! i = Some a → l !! j = Some b →
  <[j:=a]> (<[i:=b]> l) !! k =
  if decide (k = j) then Some a else if decide (k = i) then Some b else l !! k.
Proof.
  intros Ha Hb.
  pose proof (lookup_lt_Some _ _ _ Ha). pose proof (lookup_lt_Some _ _ _ Hb).
  case_decide as Hj; [subst k|].
  - apply list_lookup_insert_eq. by rewrite length_insert.
  - rewrite list_lookup_insert_ne by done.
    case_decide as Hi; [subst k|].
    + by apply list_lookup_insert_eq.
    + by rewrite list_lookup_insert_ne.
Qed.

Lemma rawQueue_Less_Some h i j t :
  rawQueue_Less h i j = Some t →
  ∃ a b, infos h !! i = Some a ∧ infos h !! j = Some b ∧
         t = bool_decide (Height a > Height b).
Proof.
  rewrite rawQueue_Less_infos. intros Ht.
  destruct (infos h !! i) as [a|]; [|done].
  destruct (infos h !! j) as [b|]; [|done].
  injection Ht as <-. eauto.
Qed.

Lemma rawQueue_Less_is_Some h i j :
  (i < length h)%nat → (j < length h)%nat → is_Some (rawQueue_Less h i j).
Proof.
  intros [a Ha]%lookup_lt_is_Some [b Hb]%lookup_lt_is_Some.
  unfold rawQueue_Less. rewrite Ha, Hb. simpl. eauto.
Qed.

(** Uses every domination fact at hand on the entries that are known. *)
Ltac use_dominates :=
  repeat match goal with
  | H : dominates ?l ?p ?k, Hp : ?l !! ?p = Some ?a, Hk : ?l !! ?k = Some ?b |- _ =>
      lazymatch goal with
      | _ : Height b ≤ Height a |- _ => fail
      | _ => pose proof (H a b Hp Hk)
      end
  end.

Lemma up_inv_root l : up_inv l 0 → heap_ordered l.
Proof. intros [H1 _] k Hk. apply H1; lia. Qed.

Lemma up_inv_done l j :
  up_inv l j → dominates l (parent j) j → heap_ordered l.
Proof.
  intros [H1 _] Hd k Hk.
  destruct (decide (k = j)) as [->|]; [done|]. apply H1; [lia|done].
Qed.

Lemma up_inv_step l j a b :
  (0 < j)%nat → l !! parent j = Some a → l !! j = Some b →
  Height b > Height a →
  up_inv l j → up_inv (<[j:=a]> (<[parent j:=b]> l)) (parent j).
Proof.
  intros Hj Ha Hb Hlt [H1 H2].
  pose proof (parent_lt j Hj) as Hij. split.
  - intros k Hk Hki x y.
    rewrite !(lookup_exchange _ _ _ _ _ _ Ha Hb).
    pose proof (parent_lt k Hk).
    destruct (decide (k = j)) as [->|Hkj].
    + rewrite decide_False by lia. rewrite decide_True by done.
      intros [= <-] [= <-]. lia.
    + rewrite (decide_False (P := k = parent j)) by done.
      destruct (decide (parent k = j)) as [Hp|Hp].
      * intros [= <-] Hy.
        pose proof (H2 k Hk Hp Hj). use_dominates. lia.
      * destruct (decide (parent k = parent j)) as [Hpp|Hpp].
        -- intros [= <-] Hy.
           pose proof (H1 k Hk Hkj) as Hd. rewrite Hpp in Hd.
           use_dominates. lia.
        -- intros Hx Hy. pose proof (H1 k Hk Hkj). use_dominates. lia.
  - intros k Hk Hp Hi x y.
    rewrite !(lookup_exchange _ _ _ _ _ _ Ha Hb).
    pose proof (parent_lt (parent j) Hi).
    pose proof (parent_lt k Hk).
    rewrite (decide_False (P := parent (parent j) = j)) by lia.
    rewrite (decide_False (P := parent (parent j) = parent j)) by lia.
    rewrite (decide_False (P := k = parent j)) by lia.
    pose proof (H1 (parent j) Hi ltac:(lia)).
    destruct (decide (k = j)) as [->|Hkj].
    + intros Hx [= <-]. use_dominates. lia.
    + intros Hx Hy. pose proof (H1 k Hk Hkj) as Hd. rewrite Hp in Hd.
      use_dominates. lia.
Qed.

Lemma up_spec h j :
  (j < length h)%nat →
  ∃ h', up h j = Some h' ∧ infos h' ≡ₚ infos h ∧
        (up_inv (infos h) j → heap_ordered (infos h')).
Proof.
  funelim (up h j); intros Hj; fold (parent j) in *.
  - exists h. repeat split; [done|]. intros Hinv.
    assert (j = 0%nat) as -> by (pose proof (parent_lt j); lia).
    by apply up_inv_root.
  - exists h. repeat split; [done|]. intros Hinv.
    apply (up_inv_done _ j); [done|].
    apply rawQueue_Less_Some in Heq as (a & b & Ha & Hb & Ht).
    symmetry in Ht. apply bool_decide_eq_false in Ht.
    intros x y ? ?; simplify_eq. lia.
  - pose proof (parent_le j).
    destruct (rawQueue_Less_is_Some h j (parent j)) as [? ?]; [lia..|congruence].
  - pose proof (parent_le j).
    apply rawQueue_Less_Some in Heq0 as (b & a & Hb & Ha & Ht).
    symmetry in Ht. apply bool_decide_eq_true in Ht.
    apply rawQueue_Swap_infos in Heq as (a' & b' & Ha' & Hb' & Hh').
    simplify_eq.
    assert (infos h' ≡ₚ infos h) as Hperm.
    { rewrite Hh'. by apply Permutation_insert_swap. }
    destruct H as (h'' & Hup & Hperm' & Hord).
    { rewrite <-(infos_length h'), Hperm, infos_length. lia. }
    exists h''. split; [done|]. split; [by rewrite Hperm'|].
    intros Hinv. apply Hord. rewrite Hh'.
    apply up_inv_step; [lia|done..].
  - pose proof (parent_le j).
    destruct (rawQueue_Swap_is_Some h (parent j) j) as [? ?]; [lia..|congruence].
Qed.

Lemma dominates_refl l j : dominates l j j.
Proof. intros a b Ha Hb. simplify_eq. lia. Qed.

Lemma down_inv_done l m i :
  (∀ k, (0 < k < m)%nat → parent k = i → dominates l i k) →
  down_inv l m i → heap_ordered_upto m l.
Proof.
  intros Hc [H1 _] k Hk.
  destruct (decide (parent k = i)) as [Hp|Hp].
  - rewrite Hp. by apply Hc.
  - by apply H1.
Qed.

Lemma down_inv_leaf l m i :
  (m <= 2 * i + 1)%nat → down_inv l m i → heap_ordered_upto m l.
Proof.
  intros Hm. apply down_inv_done. intros k Hk Hp.
  apply parent_children in Hp; lia.
Qed.

(** The child [down] selects is at least as high as every child of [i]
    below [m]. *)
Lemma right_child_first_spec h j1 m b :
  right_child_first h j1 m = Some b → (j1 < m)%nat →
  ∀ k, (k < m)%nat → k = j1 ∨ k = (j1 + 1)%nat →
       dominates (infos h) (if b then j1 + 1 else j1)%nat k.
Proof.
  unfold right_child_first. intros Hb Hj1 k Hk Hc.
  case_decide as Hm.
  - apply rawQueue_Less_Some in Hb as (x & y & Hx & Hy & ->).
    case_bool_decide as Hxy.
    + destruct Hc as [-> | ->]; [|apply dominates_refl].
      intros ? ? ? ?; simplify_eq. lia.
    + destruct Hc as [-> | ->]; [apply dominates_refl|].
      intros ? ? ? ?; simplify_eq. lia.
  - injection Hb as <-. destruct Hc as [-> | ->]; [apply dominates_refl|lia].
Qed.

Lemma down_inv_step l m i j a b :
  (0 < j < m)%nat → parent j = i →
  l !! i = Some a → l !! j = Some b → Height b > Height a →
  (∀ k, (0 < k < m)%nat → parent k = i → dominates l j k) →
  down_inv l m i → down_inv (<[j:=a]> (<[i:=b]> l)) m j.
Proof.
  intros Hj Hpj Ha Hb Hlt Hmax [H1 H2].
  pose proof (parent_lt j ltac:(lia)) as Hij. rewrite Hpj in Hij. split.
  - intros k Hk Hp x y.
    rewrite !(lookup_exchange _ _ _ _ _ _ Ha Hb).
    pose proof (parent_lt k ltac:(lia)).
    rewrite (decide_False (P := parent k = j)) by done.
    destruct (decide (k = j)) as [->|Hkj].
    + rewrite decide_True by done. intros [= <-] [= <-]. lia.
    + destruct (decide (k = i)) as [->|Hki].
      * rewrite decide_False by lia. intros Hx [= <-].
        pose proof (H2 j Hj Hpj ltac:(lia)). use_dominates. lia.
      * destruct (decide (parent k = i)) as [Hpi|Hpi].
        -- intros [= <-] Hy. pose proof (Hmax k Hk Hpi). use_dominates. lia.
        -- intros Hx Hy. pose proof (H1 k Hk Hpi). use_dominates. lia.
  - intros k Hk Hp _ x y. rewrite Hpj.
    rewrite !(lookup_exchange _ _ _ _ _ _ Ha Hb).
    pose proof (parent_lt k ltac:(lia)).
    rewrite (decide_False (P := i = j)) by lia.
    rewrite (decide_True (P := i = i)) by done.
    rewrite (decide_False (P := k = j)) by lia.
    rewrite (decide_False (P := k = i)) by lia.
    intros [= <-] Hy.
    pose proof (H1 k Hk ltac:(lia)) as Hd. rewrite Hp in Hd.
    use_dominates. lia.
Qed.

Lemma right_child_first_lt h j1 m b :
  right_child_first h j1 m = Some b → (j1 < m)%nat →
  ((if b then j1 + 1 else j1) < m)%nat.
Proof.
  unfold right_child_first. intros Hb Hj1. case_decide.
  - by destruct b.
  - by injection Hb as <-.
Qed.

Lemma right_child_first_is_Some h j1 m :
  (j1 < m)%nat → (m <= length h)%nat → is_Some (right_child_first h j1 m).
Proof.
  intros Hj1 Hm. unfold right_child_first. case_decide; [|eauto].
  apply rawQueue_Less_is_Some; lia.
Qed.

Lemma down_loop_spec h i m :
  (m <= length h)%nat →
  ∃ h' i', down_loop h i m = Some (h', i') ∧ infos h' ≡ₚ infos h ∧
           (∀ k, (m <= k)%nat → infos h' !! k = infos h !! k) ∧
           (down_inv (infos h) m i → heap_ordered_upto m (infos h')).
Proof.
  funelim (down_loop h i m); intros Hm.
  - exists h, i. repeat split; [done|]. by apply down_inv_leaf.
  - destruct (right_child_first_is_Some h (2 * i + 1) n0) as [? ?];
      [lia..|congruence].
  - pose proof (right_child_first_lt _ _ _ _ Heq0 ltac:(lia)) as Hj.
    pose proof (right_child_first_spec _ _ _ _ Heq0 ltac:(lia)) as Hmax.
    set (j := (if b then 2 * i + 1 + 1 else 2 * i + 1)%nat) in *.
    exists h, i. repeat split; [done|].
    apply down_inv_done. intros k Hk Hp.
    apply parent_children in Hp; [|lia].
    apply rawQueue_Less_Some in Heq as (x & y & Hx & Hy & Ht).
    symmetry in Ht. apply bool_decide_eq_false in Ht.
    pose proof (Hmax k ltac:(lia) Hp) as Hd.
    intros a c Ha Hc. simplify_eq. use_dominates. lia.
  - pose proof (right_child_first_lt _ _ _ _ Heq0 ltac:(lia)) as Hj.
    destruct (rawQueue_Less_is_Some h
                (if b then 2 * i + 1 + 1 else 2 * i + 1)%nat i) as [? ?];
      [lia..|congruence].
  - pose proof (right_child_first_lt _ _ _ _ Heq1 ltac:(lia)) as Hj.
    pose proof (right_child_first_spec _ _ _ _ Heq1 ltac:(lia)) as Hmax.
    set (j := (if b then 2 * i + 1 + 1 else 2 * i + 1)%nat) in *.
    assert (parent j = i ∧ (0 < j)%nat) as [Hpj Hj0].
    { split; [|destruct b; subst j; lia].
      apply parent_children; destruct b; subst j; lia. }
    apply rawQueue_Less_Some in Heq0 as (y & x & Hy & Hx & Ht).
    symmetry in Ht. apply bool_decide_eq_true in Ht.
    apply rawQueue_Swap_infos in Heq as (x' & y' & Hx' & Hy' & Hh').
    simplify_eq.
    assert (infos h' ≡ₚ infos h) as Hperm.
    { rewrite Hh'. by apply Permutation_insert_swap. }
    destruct H as (h'' & i' & Hdown & Hperm' & Hfix & Hord).
    { rewrite <-(infos_length h'), Hperm, infos_length. lia. }
    exists h'', i'. split; [done|]. split; [by rewrite Hperm'|]. split.
    + intros k Hk. rewrite Hfix by done. rewrite Hh'.
      rewrite (lookup_exchange _ _ _ _ _ _ Hx' Hy').
      rewrite !decide_False by lia. done.
    + intros Hinv. apply Hord. rewrite Hh'.
      apply down_inv_step; [lia|done..| |done].
      intros k Hk Hp. apply Hmax; [lia|].
      apply parent_children in Hp; lia.
  - pose proof (right_child_first_lt _ _ _ _ Heq1 ltac:(lia)) as Hj.
    destruct (rawQueue_Swap_is_Some h i
                (if b then 2 * i + 1 + 1 else 2 * i + 1)%nat) as [? ?];
      [lia..|congruence].
Qed.

(** In a heap the root is at least as high as every entry. *)
Lemma heap_ordered_root l a :
  heap_ordered l → l !! 0%nat = Some a → ∀ k x, l !! k = Some x → Height x ≤ Height a.
Proof.
  intros Hord Ha k. induction (lt_wf k) as [k _ IH]. intros x Hx.
  destruct (decide (k = 0%nat)) as [->|Hk]; [simplify_eq; lia|].
  pose proof (parent_lt k ltac:(lia)) as Hp.
  pose proof (lookup_lt_Some _ _ _ Hx) as Hlen.
  destruct (lookup_lt_is_Some_2 l (parent k) ltac:(lia)) as [y Hy].
  pose proof (IH (parent k) Hp y Hy).
  pose proof (Hord k ltac:(lia) y x Hy Hx). lia.
Qed.

Lemma heap_ordered_nil : heap_ordered [].
Proof. intros k Hk. simpl in Hk. lia. Qed.

Lemma heap_Init_nil : heap_Init [] = Some [].
Proof. reflexivity. Qed.

Lemma infos_rawQueue_Push h x :
  infos (rawQueue_Push h x) = infos h ++ [ChainInfo x].
Proof. unfold rawQueue_Push, infos. by rewrite fmap_app. Qed.

Lemma up_inv_snoc l c : heap_ordered l → up_inv (l ++ [c]) (length l).
Proof.
  intros Hord. split.
  - intros k Hk Hne a b Ha Hb.
    pose proof (lookup_lt_Some _ _ _ Hb) as Hlen.
    rewrite length_app in Hlen. simpl in Hlen.
    pose proof (parent_lt k Hk).
    rewrite lookup_app_l in Ha by lia. rewrite lookup_app_l in Hb by lia.
    apply (Hord k ltac:(lia) a b Ha Hb).
  - intros k Hk Hp _ a b _ Hb.
    pose proof (lookup_lt_Some _ _ _ Hb) as Hlen.
    rewrite length_app in Hlen. simpl in Hlen.
    pose proof (parent_lt k Hk). lia.
Qed.

(** [heap.Push] never panics, adds the request and keeps the heap order. *)
Lemma heap_Push_spec h x :
  ∃ h', heap_Push h x = Some h' ∧ infos h' ≡ₚ ChainInfo x :: infos h ∧
        (heap_ordered (infos h) → heap_ordered (infos h')).
Proof.
  unfold heap_Push, rawQueue_Len.
  destruct (up_spec (rawQueue_Push h x) (length (rawQueue_Push h x) - 1))
    as (h' & Hup & Hperm & Hord).
  { unfold rawQueue_Push. rewrite length_app. simpl. lia. }
  exists h'. split; [done|].
  rewrite infos_rawQueue_Push in Hperm, Hord. split.
  - rewrite Hperm. by rewrite Permutation_app_comm.
  - intros Hh. apply Hord.
    replace (length (rawQueue_Push h x) - 1)%nat with (length (infos h)).
    + by apply up_inv_snoc.
    + unfold rawQueue_Push. rewrite length_app, infos_length. simpl. lia.
Qed.

Lemma down_inv_exchange_root l m a b :
  m = (length l - 1)%nat → l !! 0%nat = Some a → l !! m = Some b →
  heap_ordered l → down_inv (<[m:=a]> (<[0%nat:=b]> l)) m 0.
Proof.
  intros Hm Ha Hb Hord. split; [|lia].
  intros k Hk Hp x y.
  rewrite !(lookup_exchange _ _ _ _ _ _ Ha Hb).
  pose proof (parent_lt k ltac:(lia)).
  rewrite !decide_False by lia.
  apply Hord. lia.
Qed.

Lemma heap_ordered_take m l :
  heap_ordered_upto m l → heap_ordered (take m l).
Proof.
  intros Hord k Hk a b. rewrite length_take in Hk.
  pose proof (parent_lt k ltac:(lia)).
  rewrite !lookup_take_lt by lia. apply Hord. lia.
Qed.

(** [heap.Pop] on a non-empty queue never panics; it removes the entry
    that was at the root, which in a heap is a highest one, and keeps the
    heap order. *)
Lemma heap_Pop_spec h :
  h ≠ [] →
  ∃ r h', heap_Pop h = Some (r, h') ∧ index r = -1 ∧
          infos h !! 0%nat = Some (ChainInfo r) ∧
          infos h ≡ₚ ChainInfo r :: infos h' ∧
          (heap_ordered (infos h) → heap_ordered (infos h')).
Proof.
  intros Hne. unfold heap_Pop, rawQueue_Len.
  assert (0 < length h)%nat as Hlen by (destruct h; [done|simpl; lia]).
  set (m := (length h - 1)%nat).
  destruct (rawQueue_Swap_is_Some h 0 m) as [h1 Hs]; [lia..|].
  rewrite Hs. simpl.
  apply rawQueue_Swap_infos in Hs as (a & b & Ha & Hb & Hh1).
  assert (infos h1 ≡ₚ infos h) as Hperm1.
  { rewrite Hh1. by apply Permutation_insert_swap. }
  assert (length h1 = S m) as Hlen1.
  { rewrite <-infos_length, Hperm1, infos_length. lia. }
  destruct (down_loop_spec h1 0 m) as (h2 & i' & Hd & Hperm2 & Hfix & Hord);
    [lia|].
  unfold down. rewrite Hd. simpl.
  assert (length h2 = S m) as Hlen2.
  { rewrite <-infos_length, Hperm2, infos_length. done. }
  assert (infos h2 !! m = Some a) as Hlast.
  { rewrite Hfix by done. rewrite Hh1.
    rewrite (lookup_exchange _ _ _ _ _ _ Ha Hb). by rewrite decide_True. }
  unfold rawQueue_Pop. rewrite Hlen2.
  unfold infos in Hlast. rewrite list_lookup_fmap in Hlast.
  destruct (h2 !! m) as [item|] eqn:Hitem; [|done].
  simpl in Hlast. injection Hlast as <-. simpl.
  exists (set_index (-1) item), (take m h2).
  split; [done|]. split; [done|]. split; [done|]. split.
  - rewrite <-Hperm1, <-Hperm2. unfold infos at 1.
    rewrite <-(take_drop m h2) at 1.
    rewrite (drop_S _ _ _ Hitem), drop_ge by lia.
    rewrite fmap_app. simpl. by rewrite Permutation_app_comm.
  - intros Hh. unfold infos. rewrite fmap_take.
    apply heap_ordered_take, Hord. rewrite Hh1.
    apply down_inv_exchange_root; [by rewrite infos_length|done..].
Qed.

(** Unwrapped, the queue can panic: [heap.Pop] on the empty queue. *)
Lemma heap_Pop_nil : heap_Pop [] = None.
Proof. reflexivity. Qed.

(** ** The target queue *)

Lemma keys_infos h : keys h = infoKey <$> infos h.
Proof. unfold keys, infos. rewrite <-list_fmap_compose. done. Qed.

Lemma TargetQueue_inv_new : TargetQueue_inv NewTargetQueue.
Proof.
  split; simpl.
  - apply heap_ordered_nil.
  - constructor.
  - intros k. set_solver.
Qed.

Lemma TargetQueue_Push_dup tq req :
  reqKey req ∈ targetSet tq → TargetQueue_Push tq req = Some tq.
Proof. intros Hin. unfold TargetQueue_Push. by rewrite decide_True. Qed.

Lemma TargetQueue_Push_fresh tq req :
  reqKey req ∉ targetSet tq →
  ∃ q', TargetQueue_Push tq req =
          Some {| q := q'; targetSet := {[reqKey req]} ∪ targetSet tq |} ∧
        infos q' ≡ₚ ChainInfo req :: infos (q tq) ∧
        (heap_ordered (infos (q tq)) → heap_ordered (infos q')).
Proof.
  intros Hin. unfold TargetQueue_Push. rewrite decide_False by done.
  destruct (heap_Push_spec (q tq) req) as (q' & Hq' & Hperm & Hord).
  exists q'. rewrite Hq'. done.
Qed.

(** [Push] never panics. *)
Lemma TargetQueue_Push_is_Some tq req : is_Some (TargetQueue_Push tq req).
Proof.
  destruct (decide (reqKey req ∈ targetSet tq)) as [Hin|Hin].
  - rewrite TargetQueue_Push_dup by done. eauto.
  - destruct (TargetQueue_Push_fresh tq req Hin) as (q' & -> & _). eauto.
Qed.

Lemma TargetQueue_inv_push tq req tq' :
  TargetQueue_inv tq → TargetQueue_Push tq req = Some tq' → TargetQueue_inv tq'.
Proof.
  intros [Hh Hn Hs] Hpush.
  destruct (decide (reqKey req ∈ targetSet tq)) as [Hin|Hin].
  - rewrite TargetQueue_Push_dup in Hpush by done. by simplify_eq.
  - destruct (TargetQueue_Push_fresh tq req Hin) as (q' & Hq' & Hperm & Hord).
    rewrite Hq' in Hpush. injection Hpush as <-.
    assert (keys q' ≡ₚ reqKey req :: keys (q tq)) as Hk.
    { rewrite !keys_infos, Hperm. done. }
    split; simpl.
    + by apply Hord.
    + rewrite Hk. constructor; [|done]. by rewrite <-Hs.
    + intros k. rewrite Hk, elem_of_union, elem_of_singleton, elem_of_cons, Hs.
      done.
Qed.

Lemma TargetQueue_Pop_empty tq :
  TargetQueue_Len tq = 0%nat →
  TargetQueue_Pop tq = Some (zeroSyncRequest, false, tq).
Proof. intros Hlen. unfold TargetQueue_Pop. by rewrite decide_True. Qed.

Lemma TargetQueue_Pop_nonempty tq :
  TargetQueue_Len tq ≠ 0%nat →
  ∃ r q', TargetQueue_Pop tq =
            Some (r, true, {| q := q'; targetSet := targetSet tq ∖ {[reqKey r]} |}) ∧
          index r = -1 ∧
          infos (q tq) !! 0%nat = Some (ChainInfo r) ∧
          infos (q tq) ≡ₚ ChainInfo r :: infos q' ∧
          (heap_ordered (infos (q tq)) → heap_ordered (infos q')).
Proof.
  intros Hlen. unfold TargetQueue_Pop. rewrite decide_False by done.
  destruct (heap_Pop_spec (q tq)) as (r & q' & Hpop & Hi & H0 & Hperm & Hord).
  { intros Hq. apply Hlen. unfold TargetQueue_Len, rawQueue_Len. by rewrite Hq. }
  exists r, q'. rewrite Hpop. done.
Qed.

(** [Pop] never panics. *)
Lemma TargetQueue_Pop_is_Some tq : is_Some (TargetQueue_Pop tq).
Proof.
  destruct (decide (TargetQueue_Len tq = 0%nat)) as [Hlen|Hlen].
  - rewrite TargetQueue_Pop_empty by done. eauto.
  - destruct (TargetQueue_Pop_nonempty tq Hlen) as (r & q' & -> & _). eauto.
Qed.

Lemma TargetQueue_inv_pop tq req popped tq' :
  TargetQueue_inv tq → TargetQueue_Pop tq = Some (req, popped, tq') →
  TargetQueue_inv tq'.
Proof.
  intros [Hh Hn Hs] Hpop.
  destruct (decide (TargetQueue_Len tq = 0%nat)) as [Hlen|Hlen].
  - rewrite TargetQueue_Pop_empty in Hpop by done. by simplify_eq.
  - destruct (TargetQueue_Pop_nonempty tq Hlen)
      as (r & q' & Hq' & _ & _ & Hperm & Hord).
    rewrite Hq' in Hpop. injection Hpop as <- <- <-.
    assert (keys (q tq) ≡ₚ reqKey r :: keys q') as Hk.
    { rewrite !keys_infos, Hperm. done. }
    rewrite Hk in Hn. apply NoDup_cons in Hn as [Hr Hn].
    split; simpl.
    + by apply Hord.
    + done.
    + intros k. rewrite elem_of_difference, elem_of_singleton, Hs, Hk, elem_of_cons.
      split; [by intros [[->|Hin] Hne]|]. intros Hin. split; [by right|].
      intros ->. done.
Qed.

Lemma reachable_inv tq : reachable tq → TargetQueue_inv tq.
Proof.
  induction 1 as [|tq req tq' _ IH Hpush|tq req popped tq' _ IH Hpop].
  - apply TargetQueue_inv_new.
  - by eapply TargetQueue_inv_push.
  - by eapply TargetQueue_inv_pop.
Qed.

Lemma TargetQueue_inv_size tq :
  TargetQueue_inv tq → size (targetSet tq) = length (q tq).
Proof.
  intros [_ Hn Hs].
  assert (targetSet tq = list_to_set (keys (q tq))) as ->.
  { apply set_eq. intros k. rewrite Hs, elem_of_list_to_set. done. }
  rewrite size_list_to_set by done. unfold keys. by rewrite length_fmap.
Qed.

(** ** Pushing and popping whole sequences *)

Lemma heights_infos l : heights l = Height <$> infos l.
Proof. unfold heights, infos. by rewrite <-list_fmap_compose. Qed.

Lemma heads_infos l : heads l = Head <$> infos l.
Proof. unfold heads, infos. by rewrite <-list_fmap_compose. Qed.

Lemma descending_NoDup hs : descending hs → NoDup hs → strictly_descending hs.
Proof.
  induction 1 as [|x l Hl IH Hx]; intros Hnd; [constructor|].
  apply NoDup_cons in Hnd as [Hnot Hnd]. constructor; [by apply IH|].
  rewrite Forall_forall in Hx |- *. intros y Hy.
  pose proof (Hx y Hy). assert (y ≠ x) by (by intros ->). lia.
Qed.

(** [pushAll] never panics and keeps the invariant. *)
Lemma pushAll_inv reqs tq :
  ∃ tq', pushAll tq reqs = Some tq' ∧ (TargetQueue_inv tq → TargetQueue_inv tq').
Proof.
  revert tq. induction reqs as [|req reqs IH]; intros tq; simpl.
  - by exists tq.
  - destruct (TargetQueue_Push_is_Some tq req) as [tq1 Hpush].
    rewrite Hpush. simpl.
    destruct (IH tq1) as (tq' & Hall & Hinv). exists tq'. split; [done|].
    intros Htq. by eapply Hinv, TargetQueue_inv_push.
Qed.

(** Requests with pairwise different keys that are not in the queue are
    all admitted. *)
Lemma pushAll_fresh reqs tq :
  TargetQueue_inv tq → NoDup (keys reqs) →
  (∀ k, k ∈ keys reqs → k ∉ targetSet tq) →
  ∃ tq', pushAll tq reqs = Some tq' ∧ TargetQueue_inv tq' ∧
         infos (q tq') ≡ₚ infos reqs ++ infos (q tq).
Proof.
  revert tq. induction reqs as [|req reqs IH]; intros tq Hinv Hnd Hfresh; simpl.
  - by exists tq.
  - apply NoDup_cons in Hnd as [Hreq Hnd].
    assert (reqKey req ∉ targetSet tq) as Hnin by (apply Hfresh; left).
    destruct (TargetQueue_Push_fresh tq req Hnin) as (q' & Hq' & Hperm & _).
    rewrite Hq'. simpl.
    destruct (IH {| q := q'; targetSet := {[reqKey req]} ∪ targetSet tq |})
      as (tq' & Hall & Hinv' & Hperm').
    + by eapply TargetQueue_inv_push.
    + done.
    + intros k Hk. simpl. rewrite elem_of_union, elem_of_singleton.
      intros [->|Hin]; [done|]. apply (Hfresh k); [by right|done].
    + exists tq'. split; [done|]. split; [done|].
      rewrite Hperm'. simpl. rewrite Hperm.
      by rewrite Permutation_middle.
Qed.

(** [Len] pops empty a queue, and return its requests from the highest
    down. *)
Lemma popAll_spec m tq :
  TargetQueue_inv tq → TargetQueue_Len tq = m →
  ∃ pops tq', popAll m tq = Some (pops, tq') ∧
              TargetQueue_inv tq' ∧ TargetQueue_Len tq' = 0%nat ∧
              infos pops ≡ₚ infos (q tq) ∧ descending (heights pops).
Proof.
  revert tq. induction m as [|m IH]; intros tq Hinv Hlen; simpl.
  - exists [], tq. split; [done|]. split; [done|]. split; [done|].
    unfold TargetQueue_Len, rawQueue_Len in Hlen.
    apply nil_length_inv in Hlen. rewrite Hlen. split; [done|constructor].
  - destruct (TargetQueue_Pop_nonempty tq ltac:(lia))
      as (r & q' & Hpop & _ & Hroot & Hperm & Hord).
    pose proof (TargetQueue_inv_pop _ _ _ _ Hinv Hpop) as Hinv1.
    rewrite Hpop. simpl.
    destruct (IH {| q := q'; targetSet := targetSet tq ∖ {[reqKey r]} |})
      as (pops & tq' & Hall & Hinv' & Hlen' & Hperm' & Hdesc); [done| |].
    { unfold TargetQueue_Len, rawQueue_Len in *. simpl.
      apply Permutation_length in Hperm. simpl in Hperm.
      rewrite !infos_length in Hperm. lia. }
    rewrite Hall. simpl. simpl in Hperm'.
    exists (r :: pops), tq'. split; [done|]. split; [done|]. split; [done|].
    split.
    + rewrite Hperm. simpl. by rewrite Hperm'.
    + simpl. constructor; [done|].
      rewrite heights_infos, Forall_fmap, Forall_forall.
      intros x Hx. simpl.
      assert (x ∈ infos (q tq)) as [k Hk]%list_elem_of_lookup.
      { rewrite Hperm, <-Hperm'. by right. }
      apply (heap_ordered_root _ _ (inv_heap _ Hinv) Hroot k x Hk).
Qed.

(** C5: in every queue reachable from the new one by [Push] and [Pop], the
    heap has as many entries as the membership set, and no two entries of
    the heap have the same [Head]. *)
Theorem C5_heap_and_set_in_lockstep tq :
  reachable tq →
  length (q tq) = size (targetSet tq) ∧
  (∀ i j a b, q tq !! i = Some a → q tq !! j = Some b →
              Head (ChainInfo a) = Head (ChainInfo b) → i = j).
Proof.
  intros Hinv%reachable_inv. split.
  - by rewrite TargetQueue_inv_size.
  - intros i j a b Ha Hb Heq.
    apply (NoDup_lookup _ i j (reqKey a) (inv_nodup _ Hinv)).
    + unfold keys. by rewrite list_lookup_fmap, Ha.
    + unfold keys, reqKey. by rewrite list_lookup_fmap, Hb, Heq.
Qed.

(** C6: on a new queue, a second [Push] of a request with the [Head] of
    the first one changes nothing and the length stays 1; once that request
    is popped, a [Push] with the same [Head] is admitted and the length is
    1 again. *)
Theorem C6_duplicate_dropped_then_readmitted r1 r2 r3 :
  Head (ChainInfo r2) = Head (ChainInfo r1) →
  Head (ChainInfo r3) = Head (ChainInfo r1) →
  ∃ tq1 r tq2 tq3,
    TargetQueue_Push NewTargetQueue r1 = Some tq1 ∧ TargetQueue_Len tq1 = 1%nat ∧
    TargetQueue_Push tq1 r2 = Some tq1 ∧
    TargetQueue_Pop tq1 = Some (r, true, tq2) ∧
    ChainInfo r = ChainInfo r1 ∧ TargetQueue_Len tq2 = 0%nat ∧
    TargetQueue_Push tq2 r3 = Some tq3 ∧ TargetQueue_Len tq3 = 1%nat.
Proof.
  intros H2 H3.
  assert (reqKey r2 = reqKey r1) as Hk2 by (unfold reqKey; by rewrite H2).
  assert (reqKey r3 = reqKey r1) as Hk3 by (unfold reqKey; by rewrite H3).
  destruct (TargetQueue_Push_fresh NewTargetQueue r1)
    as (q1 & Hpush1 & Hperm1 & _); [set_solver|].
  simpl in Hpush1, Hperm1. apply Permutation_singleton_r in Hperm1.
  set (tq1 := {| q := q1; targetSet := {[reqKey r1]} ∪ ∅ |}) in *.
  assert (TargetQueue_Len tq1 = 1%nat) as Hlen1.
  { unfold TargetQueue_Len, rawQueue_Len. simpl.
    by rewrite <-infos_length, Hperm1. }
  destruct (TargetQueue_Pop_nonempty tq1)
    as (r & q2 & Hpop & _ & Hroot & Hperm2 & _); [lia|].
  simpl in Hroot, Hperm2. rewrite Hperm1 in Hroot, Hperm2.
  injection Hroot as Hr. rewrite <-Hr in Hperm2.
  apply Permutation_cons_inv, Permutation_nil_l in Hperm2.
  set (tq2 := {| q := q2; targetSet := targetSet tq1 ∖ {[reqKey r]} |}) in *.
  assert (reqKey r = reqKey r1) as Hkr by (unfold reqKey; by rewrite <-Hr).
  destruct (TargetQueue_Push_fresh tq2 r3) as (q3 & Hpush3 & Hperm3 & _).
  { simpl. rewrite Hk3, Hkr. intros [_ Hne]%elem_of_difference.
    apply Hne. by apply elem_of_singleton. }
  eexists tq1, r, tq2, _.
  split; [done|]. split; [done|]. split.
  { apply TargetQueue_Push_dup. rewrite Hk2. simpl. set_solver. }
  split; [done|]. split; [done|]. split.
  { unfold TargetQueue_Len, rawQueue_Len. simpl.
    by rewrite <-infos_length, <-Hperm2. }
  split; [done|].
  unfold TargetQueue_Len, rawQueue_Len. simpl.
  apply Permutation_length in Hperm3. simpl in Hperm3.
  rewrite <-Hperm2 in Hperm3. by rewrite <-infos_length.
Qed.

(** C7: [Pop] on a queue of length 0 returns its second result [false],
    without a panic and with the queue as it was; on a reachable queue that
    is not empty it returns, with [true], a request of the queue whose
    [Height] is the greatest, and removes it. *)
Theorem C7_pop_empty_or_highest tq :
  (TargetQueue_Len tq = 0%nat →
   TargetQueue_Pop tq = Some (zeroSyncRequest, false, tq)) ∧
  (reachable tq → TargetQueue_Len tq ≠ 0%nat →
   ∃ r tq', TargetQueue_Pop tq = Some (r, true, tq') ∧
            ChainInfo r ∈ infos (q tq) ∧
            (∀ x, x ∈ infos (q tq) → Height x ≤ Height (ChainInfo r)) ∧
            infos (q tq) ≡ₚ ChainInfo r :: infos (q tq') ∧
            TargetQueue_Len tq = S (TargetQueue_Len tq') ∧
            reqKey r ∉ targetSet tq').
Proof.
  split; [apply TargetQueue_Pop_empty|].
  intros Hinv%reachable_inv Hlen.
  destruct (TargetQueue_Pop_nonempty tq Hlen)
    as (r & q' & Hpop & _ & Hroot & Hperm & _).
  eexists r, _. split; [done|]. simpl. split; [|split; [|split; [|split]]].
  - by eapply list_elem_of_lookup_2.
  - intros x [k Hk]%list_elem_of_lookup.
    apply (heap_ordered_root _ _ (inv_heap _ Hinv) Hroot k x Hk).
  - done.
  - unfold TargetQueue_Len, rawQueue_Len. simpl.
    apply Permutation_length in Hperm. simpl in Hperm.
    by rewrite !infos_length in Hperm.
  - intros [_ Hne]%elem_of_difference. apply Hne. by apply elem_of_singleton.
Qed.

(** ** The dispatcher *)

(** The loop of [maybeFireCbs] records position [j] exactly when the entry
    there passes the test, and calls the callbacks of these entries, in
    the order of the list. *)
Lemma maybeFireCbs_loop_spec count cbs i removedIdxs evs :
  (∀ j, j ∈ (maybeFireCbs_loop count i cbs removedIdxs evs).1 ↔
        j ∈ removedIdxs ∨
        ∃ c, (i <= j)%nat ∧ cbs !! (j - i)%nat = Some c ∧ fires_at count c = true) ∧
  (maybeFireCbs_loop count i cbs removedIdxs evs).2 =
    evs ++ ((λ c, EvCallback (cb c)) <$> filter (λ c, fires_at count c) cbs).
Proof.
  revert i removedIdxs evs.
  induction cbs as [|c cbs IH]; intros i removedIdxs evs; simpl.
  - split; [|by rewrite app_nil_r]. intros j. split; [by left|].
    intros [?|(c & _ & Hc & _)]; [done|]. by rewrite lookup_nil in Hc.
  - change (bool_decide (wrap64 (start c + n c) = count)) with (fires_at count c).
    destruct (fires_at count c) eqn:Hc.
    + destruct (IH (S i) (removedIdxs ++ [i]) (evs ++ [EvCallback (cb c)]))
        as [Hidx Hevs].
      rewrite filter_cons_True by (by rewrite Hc). split.
      * intros j. rewrite Hidx, elem_of_app, list_elem_of_singleton.
        split.
        -- intros [[?| ->]|(c' & Hle & Hc' & Hf)]; [by left| |].
           ++ right. exists c. rewrite Nat.sub_diag. done.
           ++ right. exists c'. split; [lia|]. split; [|done].
              replace (j - i)%nat with (S (j - S i)) by lia. done.
        -- intros [?|(c' & Hle & Hc' & Hf)]; [by left; left|].
           destruct (decide (j = i)) as [->|Hne]; [by left; right|].
           right. exists c'. split; [lia|]. split; [|done].
           replace (j - i)%nat with (S (j - S i)) in Hc' by lia. done.
      * rewrite Hevs. simpl. by rewrite <-app_assoc.
    + destruct (IH (S i) removedIdxs evs) as [Hidx Hevs].
      rewrite filter_cons_False by (rewrite Hc; intros []). split; [|done].
      intros j. rewrite Hidx. split.
      * intros [?|(c' & Hle & Hc' & Hf)]; [by left|].
        right. exists c'. split; [lia|]. split; [|done].
        replace (j - i)%nat with (S (j - S i)) by lia. done.
      * intros [?|(c' & Hle & Hc' & Hf)]; [by left|].
        destruct (decide (j = i)) as [->|Hne].
        { rewrite Nat.sub_diag in Hc'. simpl in Hc'.
          injection Hc' as <-. congruence. }
        right. exists c'. split; [lia|]. split; [|done].
        replace (j - i)%nat with (S (j - S i)) in Hc' by lia. done.
Qed.

Lemma maybeFireCbs_events d :
  (maybeFireCbs d).2 =
  (λ c, EvCallback (cb c)) <$>
    filter (λ c, fires_at (syncReqCount d) c) (onProcessedCountCbs d).
Proof.
  unfold maybeFireCbs.
  pose proof (maybeFireCbs_loop_spec (syncReqCount d) (onProcessedCountCbs d)
                0 [] []) as [_ Hevs].
  destruct (maybeFireCbs_loop _ _ _ _ _) as [removedIdxs evs]. by simpl in *.
Qed.

Lemma maybeFireCbs_dispatcher d : (maybeFireCbs d).1 = d.
Proof.
  unfold maybeFireCbs. by destruct (maybeFireCbs_loop _ _ _ _ _).
Qed.

Lemma maybeFireCbs_no_sync_call d : filter is_sync_call (maybeFireCbs d).2 = [].
Proof.
  rewrite maybeFireCbs_events.
  induction (filter _ (onProcessedCountCbs d)) as [|c l IH]; [done|].
  simpl. by rewrite filter_cons_False by (intros []).
Qed.

Lemma receiveCtrl_frame d ctrl :
  targetQ (receiveCtrl d ctrl).1 = targetQ d ∧
  syncReqCount (receiveCtrl d ctrl).1 = syncReqCount d ∧
  filter is_sync_call (receiveCtrl d ctrl).2 = [].
Proof. by destruct ctrl. Qed.

Lemma controlStep_frame d env :
  targetQ (controlStep d env).1 = targetQ d ∧
  syncReqCount (controlStep d env).1 = syncReqCount d ∧
  filter is_sync_call (controlStep d env).2 = [].
Proof.
  unfold controlStep. destruct (env_ctrl env); [apply receiveCtrl_frame|done].
Qed.

(** A cycle that is not cancelled, step by step. *)
Lemma cycle_unfold d last env :
  env_done env = false →
  cycle d last env =
  tq ← pushAll (targetQ d) (gather last env);
  '(syncReq, popped, tq') ← TargetQueue_Pop tq;
  let d2 := (controlStep d env).1 in
  let evs := (maybeFireCbs d).2 ++ (controlStep d env).2 in
  if popped : bool then
    Some ({| targetQ := tq';
             onProcessedCountCbs := onProcessedCountCbs d2;
             syncReqCount := wrap64 (syncReqCount d + 1) |},
          Running None,
          evs ++ EvHandleNewTipSet (ChainInfo syncReq) true ::
            match env_HandleNewTipSet env (ChainInfo syncReq) true with
            | Some e => [EvLogSyncFailed e]
            | None => []
            end)
  else
    match env_extra env with
    | Some extra => Some (withQueue d2 tq', Running (Some extra), evs)
    | None => Some (withQueue d2 tq', Waiting, evs)
    end.
Proof.
  intros Hdone. unfold cycle.
  pose proof (maybeFireCbs_dispatcher d) as Hd1.
  destruct (maybeFireCbs d) as [d1 evs1]. simpl in Hd1. subst d1.
  rewrite Hdone.
  destruct (controlStep_frame d env) as (Hq & Hcount & _).
  unfold controlStep in *.
  destruct (match env_ctrl env with Some ctrl => receiveCtrl d ctrl | None => (d, []) end)
    as [d2 evs2].
  simpl in *. rewrite Hq, Hcount.
  destruct (pushAll (targetQ d) (gather last env)) as [tq|]; [simpl|done].
  destruct (TargetQueue_Pop tq) as [[[syncReq [|]] tq']|]; simpl; [|done..].
  by rewrite <-!app_assoc.
Qed.

(** No cycle panics. *)
Lemma cycle_is_Some d last env : is_Some (cycle d last env).
Proof.
  destruct (env_done env) eqn:Hdone.
  - unfold cycle. destruct (maybeFireCbs d). rewrite Hdone. eauto.
  - rewrite cycle_unfold by done.
    destruct (pushAll_inv (gather last env) (targetQ d)) as (tq & -> & _).
    simpl. destruct (TargetQueue_Pop_is_Some tq) as [[[syncReq popped] tq'] ->].
    simpl. destruct popped; [eauto|]. destruct (env_extra env); eauto.
Qed.

(** C3: [maybeFireCbs] leaves the dispatcher, and its list of pending
    callbacks, as they were; an entry whose test passes has its position
    recorded for removal and its callback called, and is still in the list
    at that position afterwards. *)
Theorem C3_maybeFireCbs_keeps_the_list d :
  (maybeFireCbs d).1 = d ∧
  onProcessedCountCbs (maybeFireCbs d).1 = onProcessedCountCbs d ∧
  (∀ i c, onProcessedCountCbs d !! i = Some c →
          fires_at (syncReqCount d) c = true →
          i ∈ (maybeFireCbs_loop (syncReqCount d) 0 (onProcessedCountCbs d) [] []).1 ∧
          EvCallback (cb c) ∈ (maybeFireCbs d).2 ∧
          onProcessedCountCbs (maybeFireCbs d).1 !! i = Some c).
Proof.
  rewrite maybeFireCbs_dispatcher. split; [done|]. split; [done|].
  intros i c Hi Hc. split; [|split; [|done]].
  - apply maybeFireCbs_loop_spec. right. exists c.
    rewrite Nat.sub_0_r. split; [lia|done].
  - rewrite maybeFireCbs_events.
    apply (list_elem_of_fmap_2 (λ c, EvCallback (cb c))).
    apply list_elem_of_filter. split; [by rewrite Hc|].
    by eapply list_elem_of_lookup_2.
Qed.

(** What the test of [maybeFireCbs] does: the entry at position [i] is
    recorded exactly when the processed counter is equal to [start + n]
    (in [uint64] arithmetic), so not at a counter value that is past it. *)
Lemma maybeFireCbs_records_at_equality d i c :
  onProcessedCountCbs d !! i = Some c →
  (i ∈ (maybeFireCbs_loop (syncReqCount d) 0 (onProcessedCountCbs d) [] []).1 ↔
   wrap64 (start c + n c) = syncReqCount d) ∧
  (0 ≤ start c + n c < syncReqCount d → syncReqCount d < uint64_modulus →
   i ∉ (maybeFireCbs_loop (syncReqCount d) 0 (onProcessedCountCbs d) [] []).1).
Proof.
  intros Hi.
  assert (i ∈ (maybeFireCbs_loop (syncReqCount d) 0 (onProcessedCountCbs d) [] []).1 ↔
          wrap64 (start c + n c) = syncReqCount d) as Hiff.
  { rewrite (proj1 (maybeFireCbs_loop_spec _ _ _ _ _)). rewrite Nat.sub_0_r. split.
    - intros [Hnil|(c' & _ & Hc' & Hf)]; [by apply elem_of_nil in Hnil|].
      rewrite Hi in Hc'. injection Hc' as <-.
      by apply bool_decide_eq_true in Hf.
    - intros Heq. right. exists c. split; [lia|]. split; [done|].
      by apply bool_decide_eq_true. }
  split; [done|]. intros Hlt Hmax. rewrite Hiff.
  unfold wrap64. rewrite Z.mod_small by lia. lia.
Qed.

(** C8: in a cycle in which a request is popped, [HandleNewTipSet] is
    called exactly once, with that request and [isCatchUp = true]; whatever
    it returns, [syncReqCount] is incremented by one (in [uint64]
    arithmetic) and the loop goes on to its next cycle with the popped
    request gone from the queue and nothing left over; an error is logged. *)
Theorem C8_one_sync_call_one_increment d last env tq syncReq tq' :
  env_done env = false →
  pushAll (targetQ d) (gather last env) = Some tq →
  TargetQueue_Pop tq = Some (syncReq, true, tq') →
  ∃ d' evs,
    cycle d last env = Some (d', Running None, evs) ∧
    filter is_sync_call evs = [EvHandleNewTipSet (ChainInfo syncReq) true] ∧
    syncReqCount d' = wrap64 (syncReqCount d + 1) ∧
    (0 ≤ syncReqCount d < uint64_modulus - 1 →
     syncReqCount d' = syncReqCount d + 1) ∧
    targetQ d' = tq' ∧
    (∀ e, env_HandleNewTipSet env (ChainInfo syncReq) true = Some e →
          EvLogSyncFailed e ∈ evs) ∧
    (env_HandleNewTipSet env (ChainInfo syncReq) true = None →
     ∀ e, EvLogSyncFailed e ∉ evs).
Proof.
  intros Hdone Hpush Hpop.
  rewrite cycle_unfold by done. rewrite Hpush. simpl. rewrite Hpop. simpl.
  eexists _, _. split; [done|]. simpl.
  destruct (controlStep_frame d env) as (_ & _ & Hctrl).
  pose proof (maybeFireCbs_no_sync_call d) as Hcbs.
  split; [|split; [done|split; [|split; [done|split]]]].
  - rewrite !filter_app, Hcbs, Hctrl. simpl.
    rewrite filter_cons_True by done.
    by destruct (env_HandleNewTipSet env (ChainInfo syncReq) true).
  - intros Hrange. unfold wrap64. rewrite Z.mod_small; [done|].
    unfold uint64_modulus in *. lia.
  - intros e ->. rewrite !elem_of_app. right. right. left.
  - intros -> e. rewrite !elem_of_app, maybeFireCbs_events.
    intros [[(c & Hc & _)%list_elem_of_fmap|Hin]|Hin].
    + done.
    + unfold controlStep in Hin. destruct (env_ctrl env) as [[msg|ty]|];
        simpl in Hin; [by apply elem_of_nil in Hin| |by apply elem_of_nil in Hin].
      by apply list_elem_of_singleton in Hin.
    + by apply list_elem_of_singleton in Hin.
Qed.

(** C9: a processed-count-callback command received on the control channel
    is stamped with the current value of the processed counter and appended
    to the list of pending callbacks; a value of any other type is logged
    and the dispatcher is left as it was; and whatever the value, the cycle
    that receives it is carried through: the loop is not aborted. *)
Theorem C9_control_commands d :
  (∀ msg, receiveCtrl d (CtrlOnProcessedCountCb msg) =
          ({| targetQ := targetQ d;
              onProcessedCountCbs :=
                onProcessedCountCbs d ++
                [{| cb := cb msg; n := n msg; start := syncReqCount d |}];
              syncReqCount := syncReqCount d |}, [])) ∧
  (∀ dynType, receiveCtrl d (CtrlOther dynType) =
              (d, [EvLogUnknownControl dynType])) ∧
  (∀ last env ctrl,
     env_done env = false → env_ctrl env = Some ctrl →
     ∃ d' st evs,
       cycle d last env = Some (d', st, evs) ∧ st ≠ Stopped ∧
       onProcessedCountCbs d' = onProcessedCountCbs (receiveCtrl d ctrl).1 ∧
       (∀ e, e ∈ (receiveCtrl d ctrl).2 → e ∈ evs)).
Proof.
  split; [done|]. split; [done|].
  intros last env ctrl Hdone Hctrl.
  rewrite cycle_unfold by done.
  destruct (pushAll_inv (gather last env) (targetQ d)) as (tq & -> & _).
  simpl. destruct (TargetQueue_Pop_is_Some tq) as [[[syncReq popped] tq'] ->].
  simpl. unfold controlStep. rewrite Hctrl.
  destruct popped; [|destruct (env_extra env)];
    eexists _, _, _; (split; [done|]); (split; [done|]); (split; [done|]);
    intros e He; rewrite !elem_of_app; auto.
Qed.

(** ** Further properties of the queue *)

Lemma TargetQueue_Push_set tq req tq' :
  TargetQueue_Push tq req = Some tq' →
  targetSet tq' = {[reqKey req]} ∪ targetSet tq.
Proof.
  intros Hpush. destruct (decide (reqKey req ∈ targetSet tq)) as [Hin|Hin].
  - rewrite TargetQueue_Push_dup in Hpush by done. injection Hpush as <-.
    apply set_eq. intros k. rewrite elem_of_union, elem_of_singleton.
    split; [by right|]. by intros [->|?].
  - destruct (TargetQueue_Push_fresh tq req Hin) as (q' & Hq' & _).
    rewrite Hq' in Hpush. by injection Hpush as <-.
Qed.

Lemma TargetQueue_Push_infos tq req tq' :
  TargetQueue_Push tq req = Some tq' →
  (∀ x, x ∈ infos (q tq) → x ∈ infos (q tq')) ∧
  (∀ x, x ∈ infos (q tq') → x ∈ infos (q tq) ∨ x = ChainInfo req) ∧
  (reqKey req ∉ targetSet tq → ChainInfo req ∈ infos (q tq')).
Proof.
  intros Hpush. destruct (decide (reqKey req ∈ targetSet tq)) as [Hin|Hin].
  - rewrite TargetQueue_Push_dup in Hpush by done. injection Hpush as <-.
    split; [done|]. split; [by left|done].
  - destruct (TargetQueue_Push_fresh tq req Hin) as (q' & Hq' & Hperm & _).
    rewrite Hq' in Hpush. injection Hpush as <-. simpl.
    split; [|split].
    + intros x Hx. rewrite Hperm. by right.
    + intros x. rewrite Hperm, elem_of_cons. by intros [->|?]; [right|left].
    + intros _. rewrite Hperm. by left.
Qed.

Lemma pushAll_set reqs tq tq' :
  pushAll tq reqs = Some tq' →
  targetSet tq' = targetSet tq ∪ list_to_set (keys reqs).
Proof.
  revert tq. induction reqs as [|req reqs IH]; intros tq Hall; simpl in *.
  - injection Hall as <-. apply set_eq. intros k.
    rewrite elem_of_union, elem_of_empty. split; [by left|by intros [?|[]]].
  - destruct (TargetQueue_Push tq req) as [tq1|] eqn:Hpush; [simpl in Hall|done].
    rewrite (IH _ Hall), (TargetQueue_Push_set _ _ _ Hpush).
    apply set_eq. intros k.
    rewrite !elem_of_union, elem_of_singleton. tauto.
Qed.

Lemma pushAll_infos reqs tq tq' :
  pushAll tq reqs = Some tq' →
  (∀ x, x ∈ infos (q tq) → x ∈ infos (q tq')) ∧
  (∀ x, x ∈ infos (q tq') → x ∈ infos (q tq) ∨ x ∈ infos reqs).
Proof.
  revert tq. induction reqs as [|req reqs IH]; intros tq Hall; simpl in *.
  - injection Hall as <-. split; [done|]. by left.
  - destruct (TargetQueue_Push tq req) as [tq1|] eqn:Hpush; [simpl in Hall|done].
    destruct (TargetQueue_Push_infos _ _ _ Hpush) as (Hmono & Hfrom & _).
    destruct (IH _ Hall) as [Hmono' Hfrom']. split.
    + intros x Hx. by apply Hmono', Hmono.
    + intros x Hx. rewrite elem_of_cons.
      destruct (Hfrom' x Hx) as [Hx1|?]; [|by right; right].
      destruct (Hfrom x Hx1) as [?| ->]; [by left|by right; left].
Qed.

(** Of requests with pairwise different keys, each one whose key is not in
    the queue is admitted. *)
Lemma pushAll_admits reqs tq tq' r :
  pushAll tq reqs = Some tq' → NoDup (keys reqs) → r ∈ reqs →
  reqKey r ∉ targetSet tq → ChainInfo r ∈ infos (q tq').
Proof.
  revert tq. induction reqs as [|req reqs IH]; intros tq Hall Hnd Hr Hfresh.
  - by apply elem_of_nil in Hr.
  - simpl in Hall, Hnd. apply NoDup_cons in Hnd as [Hreq Hnd].
    destruct (TargetQueue_Push tq req) as [tq1|] eqn:Hpush; [simpl in Hall|done].
    apply elem_of_cons in Hr as [->|Hr].
    + destruct (TargetQueue_Push_infos _ _ _ Hpush) as (_ & _ & Hin).
      by apply (proj1 (pushAll_infos _ _ _ Hall)), Hin.
    + apply (IH tq1); [done..|].
      rewrite (TargetQueue_Push_set _ _ _ Hpush), elem_of_union, elem_of_singleton.
      intros [Heq|?]; [|done]. apply Hreq. rewrite <-Heq.
      by apply (list_elem_of_fmap_2 reqKey).
Qed.


(** X2: a request whose key is not in the queue and whose [Height] is
    greater than that of every entry overtakes them all: pushed, it is the
    one the next [Pop] returns, and the queue is then what it was before
    the push. *)
Theorem X2_higher_request_overtakes tq req :
  TargetQueue_inv tq → reqKey req ∉ targetSet tq →
  (∀ x, x ∈ infos (q tq) → Height x < Height (ChainInfo req)) →
  ∃ tq1 r tq2,
    TargetQueue_Push tq req = Some tq1 ∧
    TargetQueue_Pop tq1 = Some (r, true, tq2) ∧
    ChainInfo r = ChainInfo req ∧
    infos (q tq2) ≡ₚ infos (q tq) ∧ targetSet tq2 = targetSet tq.
Proof.
  intros Hinv Hfresh Hlow.
  destruct (TargetQueue_Push_fresh tq req Hfresh) as (q1 & Hpush & Hperm1 & _).
  pose proof (TargetQueue_inv_push _ _ _ Hinv Hpush) as Hinv1.
  set (tq1 := {| q := q1; targetSet := {[reqKey req]} ∪ targetSet tq |}) in *.
  destruct (TargetQueue_Pop_nonempty tq1) as (r & q2 & Hpop & _ & Hroot & Hperm2 & _).
  { unfold TargetQueue_Len, rawQueue_Len. simpl.
    apply Permutation_length in Hperm1. simpl in Hperm1.
    rewrite infos_length in Hperm1. lia. }
  simpl in Hroot, Hperm2.
  assert (ChainInfo r = ChainInfo req) as Hr.
  { assert (ChainInfo r ∈ ChainInfo req :: infos (q tq)) as Hin.
    { rewrite <-Hperm1. by eapply list_elem_of_lookup_2. }
    apply elem_of_cons in Hin as [?|Hin]; [done|].
    assert (ChainInfo req ∈ infos q1) as [k Hk]%list_elem_of_lookup.
    { rewrite Hperm1. by left. }
    pose proof (heap_ordered_root _ _ (inv_heap _ Hinv1) Hroot k _ Hk).
    pose proof (Hlow _ Hin). lia. }
  eexists tq1, r, _. split; [done|]. split; [done|]. split; [done|]. simpl. split.
  - rewrite Hperm1, Hr in Hperm2. by apply Permutation_cons_inv in Hperm2.
  - assert (reqKey r = reqKey req) as -> by (unfold reqKey; by rewrite Hr).
    apply set_eq. intros k.
    rewrite elem_of_difference, elem_of_union, elem_of_singleton.
    split; [by intros [[?|?] ?]|]. intros Hk. split; [by right|].
    by intros ->.
Qed.

(** X3: on any queue that is not empty, whatever its order, [Pop] returns
    the entry at position 0 of the slice with its position field set to
    -1, shortens the queue by one and deletes the key of that entry from
    the membership set. *)
Theorem X3_Pop_returns_the_root tq :
  TargetQueue_Len tq ≠ 0%nat →
  ∃ r tq', TargetQueue_Pop tq = Some (r, true, tq') ∧
           index r = -1 ∧
           infos (q tq) !! 0%nat = Some (ChainInfo r) ∧
           TargetQueue_Len tq = S (TargetQueue_Len tq') ∧
           targetSet tq' = targetSet tq ∖ {[reqKey r]}.
Proof.
  intros Hlen.
  destruct (TargetQueue_Pop_nonempty tq Hlen)
    as (r & q' & Hpop & Hidx & Hroot & Hperm & _).
  eexists r, _. split; [done|]. split; [done|]. split; [done|]. split; [|done].
  unfold TargetQueue_Len, rawQueue_Len. simpl.
  apply Permutation_length in Hperm. simpl in Hperm.
  by rewrite !infos_length in Hperm.
Qed.


(** X5: [Swap] panics exactly when a position is out of range; otherwise
    it keeps the length, exchanges the chain infos at the two positions
    and leaves the others, and a second [Swap] of the same positions
    restores the chain infos. *)
Theorem X5_Swap_exchanges (h : rawQueue) i j :
  (is_Some (rawQueue_Swap h i j) ↔ (i < length h)%nat ∧ (j < length h)%nat) ∧
  (∀ h', rawQueue_Swap h i j = Some h' →
         length h' = length h ∧
         infos h' !! i = infos h !! j ∧ infos h' !! j = infos h !! i ∧
         (∀ k, k ≠ i → k ≠ j → infos h' !! k = infos h !! k) ∧
         ∃ h'', rawQueue_Swap h' i j = Some h'' ∧ infos h'' = infos h).
Proof.
  split.
  - split; [|by intros [? ?]; apply rawQueue_Swap_is_Some].
    intros [h' (a & b & Ha & Hb & _)%rawQueue_Swap_infos].
    apply lookup_lt_Some in Ha, Hb. by rewrite infos_length in Ha, Hb.
  - intros h' Hs.
    apply rawQueue_Swap_infos in Hs as (a & b & Ha & Hb & Hh').
    assert (length h' = length h) as Hlen.
    { by rewrite <-(infos_length h'), Hh', !length_insert, infos_length. }
    pose proof (lookup_lt_Some _ _ _ Ha) as Hi.
    pose proof (lookup_lt_Some _ _ _ Hb) as Hj.
    rewrite infos_length in Hi, Hj.
    assert (infos h' !! i = Some b) as Hi'.
    { rewrite Hh', (lookup_exchange _ _ _ _ _ _ Ha Hb).
      case_decide; [by simplify_eq|]. by rewrite decide_True. }
    assert (infos h' !! j = Some a) as Hj'.
    { rewrite Hh', (lookup_exchange _ _ _ _ _ _ Ha Hb). by rewrite decide_True. }
    split; [done|]. split; [by rewrite Hi', Hb|]. split; [by rewrite Hj', Ha|].
    split.
    + intros k Hki Hkj. rewrite Hh', (lookup_exchange _ _ _ _ _ _ Ha Hb).
      by rewrite !decide_False.
    + destruct (rawQueue_Swap_is_Some h' i j) as [h'' Hs']; [lia..|].
      exists h''. split; [done|].
      apply rawQueue_Swap_infos in Hs' as (b' & a' & Hb' & Ha' & ->).
      simplify_eq. apply list_eq. intros k.
      rewrite (lookup_exchange _ _ _ _ _ _ Hi' Hj').
      rewrite Hh', (lookup_exchange _ _ _ _ _ _ Ha Hb).
      repeat case_decide; by simplify_eq.
Qed.

(** ** heap.Init *)

Lemma down_inv_from_done lo l m i :
  (∀ k, (0 < k < m)%nat → parent k = i → dominates l i k) →
  down_inv_from lo l m i → heap_from lo m l.
Proof.
  intros Hc [H1 _] k Hk Hlo.
  destruct (decide (parent k = i)) as [Hp|Hp].
  - rewrite Hp. by apply Hc.
  - by apply H1.
Qed.

Lemma down_inv_from_step lo l m i j a b :
  (0 < j < m)%nat → parent j = i → (lo <= i)%nat →
  l !! i = Some a → l !! j = Some b → Height b > Height a →
  (∀ k, (0 < k < m)%nat → parent k = i → dominates l j k) →
  down_inv_from lo l m i → down_inv_from lo (<[j:=a]> (<[i:=b]> l)) m j.
Proof.
  intros Hj Hpj Hlo Ha Hb Hlt Hmax [H1 H2].
  pose proof (parent_lt j ltac:(lia)) as Hij. rewrite Hpj in Hij. split.
  - intros k Hk Hlok Hp x y.
    rewrite !(lookup_exchange _ _ _ _ _ _ Ha Hb).
    pose proof (parent_lt k ltac:(lia)).
    rewrite (decide_False (P := parent k = j)) by done.
    destruct (decide (k = j)) as [->|Hkj].
    + rewrite decide_True by done. intros [= <-] [= <-]. lia.
    + destruct (decide (k = i)) as [->|Hki].
      * rewrite decide_False by lia. intros Hx [= <-].
        pose proof (H2 j Hj Hpj ltac:(lia)). use_dominates. lia.
      * destruct (decide (parent k = i)) as [Hpi|Hpi].
        -- intros [= <-] Hy. pose proof (Hmax k Hk Hpi). use_dominates. lia.
        -- intros Hx Hy. pose proof (H1 k Hk Hlok Hpi). use_dominates. lia.
  - intros k Hk Hp _ x y. rewrite Hpj.
    rewrite !(lookup_exchange _ _ _ _ _ _ Ha Hb).
    pose proof (parent_lt k ltac:(lia)).
    rewrite (decide_False (P := i = j)) by lia.
    rewrite (decide_True (P := i = i)) by done.
    rewrite (decide_False (P := k = j)) by lia.
    rewrite (decide_False (P := k = i)) by lia.
    intros [= <-] Hy.
    pose proof (H1 k Hk ltac:(lia) ltac:(lia)) as Hd. rewrite Hp in Hd.
    use_dominates. lia.
Qed.

(** [down] on the subtree at [i], the entries from [lo] on being ordered
    apart from [i]. *)
Lemma down_loop_from_spec lo h i m :
  (m <= length h)%nat → (lo <= i)%nat →
  ∃ h' i', down_loop h i m = Some (h', i') ∧ infos h' ≡ₚ infos h ∧
           (down_inv_from lo (infos h) m i → heap_from lo m (infos h')).
Proof.
  funelim (down_loop h i m); intros Hm Hlo.
  - exists h, i. repeat split; [done|].
    apply down_inv_from_done. intros k Hk Hp.
    apply parent_children in Hp; lia.
  - destruct (right_child_first_is_Some h (2 * i + 1) n0) as [? ?];
      [lia..|congruence].
  - pose proof (right_child_first_lt _ _ _ _ Heq0 ltac:(lia)) as Hj.
    pose proof (right_child_first_spec _ _ _ _ Heq0 ltac:(lia)) as Hmax.
    set (j := (if b then 2 * i + 1 + 1 else 2 * i + 1)%nat) in *.
    exists h, i. repeat split; [done|].
    apply down_inv_from_done. intros k Hk Hp.
    apply parent_children in Hp; [|lia].
    apply rawQueue_Less_Some in Heq as (x & y & Hx & Hy & Ht).
    symmetry in Ht. apply bool_decide_eq_false in Ht.
    pose proof (Hmax k ltac:(lia) Hp) as Hd.
    intros a c Ha Hc. simplify_eq. use_dominates. lia.
  - pose proof (right_child_first_lt _ _ _ _ Heq0 ltac:(lia)) as Hj.
    destruct (rawQueue_Less_is_Some h
                (if b then 2 * i + 1 + 1 else 2 * i + 1)%nat i) as [? ?];
      [lia..|congruence].
  - pose proof (right_child_first_lt _ _ _ _ Heq1 ltac:(lia)) as Hj.
    pose proof (right_child_first_spec _ _ _ _ Heq1 ltac:(lia)) as Hmax.
    set (j := (if b then 2 * i + 1 + 1 else 2 * i + 1)%nat) in *.
    assert (parent j = i ∧ (0 < j)%nat ∧ (i < j)%nat) as (Hpj & Hj0 & Hij).
    { split; [|destruct b; subst j; lia].
      apply parent_children; destruct b; subst j; lia. }
    apply rawQueue_Less_Some in Heq0 as (y & x & Hy & Hx & Ht).
    symmetry in Ht. apply bool_decide_eq_true in Ht.
    apply rawQueue_Swap_infos in Heq as (x' & y' & Hx' & Hy' & Hh').
    simplify_eq.
    assert (infos h' ≡ₚ infos h) as Hperm.
    { rewrite Hh'. by apply Permutation_insert_swap. }
    destruct (H lo) as (h'' & i' & Hdown & Hperm' & Hord).
    { rewrite <-(infos_length h'), Hperm, infos_length. lia. }
    { lia. }
    exists h'', i'. split; [done|]. split; [by rewrite Hperm'|].
    intros Hinv. apply Hord. rewrite Hh'.
    apply down_inv_from_step; [lia|done|lia|done..| |done].
    intros k Hk Hp. apply Hmax; [lia|].
    apply parent_children in Hp; lia.
  - pose proof (right_child_first_lt _ _ _ _ Heq1 ltac:(lia)) as Hj.
    destruct (rawQueue_Swap_is_Some h i
                (if b then 2 * i + 1 + 1 else 2 * i + 1)%nat) as [? ?];
      [lia..|congruence].
Qed.

Lemma heap_Init_loop_spec k h :
  heap_from k (length h) (infos h) →
  ∃ h', heap_Init_loop k h (length h) = Some h' ∧ infos h' ≡ₚ infos h ∧
        heap_ordered (infos h').
Proof.
  revert h. induction k as [|i IH]; intros h Hfrom; simpl.
  - exists h. split; [done|]. split; [done|].
    intros k Hk. rewrite infos_length in Hk. apply Hfrom; lia.
  - destruct (down_loop_from_spec i h i (length h)) as (h1 & i' & Hd & Hperm & Hord);
      [lia..|].
    unfold down. rewrite Hd. simpl.
    assert (length h1 = length h) as Hlen.
    { by rewrite <-(infos_length h1), Hperm, infos_length. }
    rewrite <-Hlen. destruct (IH h1) as (h' & Hloop & Hperm' & Hheap).
    + rewrite Hlen. apply Hord. split; [|lia].
      intros k Hk Hlo Hne. apply Hfrom; [done|lia].
    + exists h'. split; [done|]. split; [by rewrite Hperm'|done].
Qed.

(** X19: [heap.Init] never panics; on any slice it rearranges the entries
    into a heap: the same chain infos, each at least as high as its
    children. *)
Theorem X19_heap_Init_builds_a_heap (h : rawQueue) :
  ∃ h', heap_Init h = Some h' ∧ infos h' ≡ₚ infos h ∧
        heap_ordered (infos h') ∧
        (∀ a, infos h' !! 0%nat = Some a →
              ∀ x, x ∈ infos h → Height x ≤ Height a).
Proof.
  unfold heap_Init, rawQueue_Len.
  destruct (heap_Init_loop_spec (length h / 2) h) as (h' & Hinit & Hperm & Hheap).
  { intros k Hk Hlo.
    pose proof (Nat.div_mod_eq (length h) 2) as Hd.
    pose proof (Nat.mod_upper_bound (length h) 2 ltac:(lia)).
    assert (parent k = parent k) as Hp by done.
    apply parent_children in Hp; lia. }
  exists h'. split; [done|]. split; [done|]. split; [done|].
  intros a Ha x Hx. rewrite <-Hperm in Hx.
  apply list_elem_of_lookup in Hx as [k Hk].
  by apply (heap_ordered_root _ _ Hheap Ha k).
Qed.

(** ** Further properties of the loop *)

(** The two ways a cycle that is not cancelled can go: the queue is empty
    after the pushes and the loop waits, or a request is popped and
    synced. *)
Lemma cycle_cases d last env :
  env_done env = false →
  ∃ tq, pushAll (targetQ d) (gather last env) = Some tq ∧
    ((TargetQueue_Len tq = 0%nat ∧
      cycle d last env =
        Some (withQueue (controlStep d env).1 tq,
              match env_extra env with
              | Some extra => Running (Some extra)
              | None => Waiting
              end,
              (maybeFireCbs d).2 ++ (controlStep d env).2)) ∨
     (∃ r tq',
        TargetQueue_Len tq ≠ 0%nat ∧
        TargetQueue_Pop tq = Some (r, true, tq') ∧
        cycle d last env =
          Some ({| targetQ := tq';
                   onProcessedCountCbs := onProcessedCountCbs (controlStep d env).1;
                   syncReqCount := wrap64 (syncReqCount d + 1) |},
                Running None,
                ((maybeFireCbs d).2 ++ (controlStep d env).2) ++
                EvHandleNewTipSet (ChainInfo r) true ::
                match env_HandleNewTipSet env (ChainInfo r) true with
                | Some e => [EvLogSyncFailed e]
                | None => []
                end))).
Proof.
  intros Hdone. rewrite cycle_unfold by done.
  destruct (pushAll_inv (gather last env) (targetQ d)) as (tq & Hall & _).
  exists tq. split; [done|]. rewrite Hall. simpl.
  destruct (decide (TargetQueue_Len tq = 0%nat)) as [Hlen|Hlen].
  - left. split; [done|]. rewrite TargetQueue_Pop_empty by done. simpl.
    by destruct (env_extra env).
  - right. destruct (TargetQueue_Pop_nonempty tq Hlen) as (r & q' & Hpop & _).
    eexists r, _. split; [done|]. split; [done|]. by rewrite Hpop.
Qed.

Lemma not_sync_call_before d env e :
  e ∈ (maybeFireCbs d).2 ++ (controlStep d env).2 → is_sync_call e = false.
Proof.
  intros He. destruct (is_sync_call e) eqn:Hs; [|done].
  assert (e ∈ filter is_sync_call ((maybeFireCbs d).2 ++ (controlStep d env).2))
    as Hin by (apply list_elem_of_filter; by rewrite Hs).
  rewrite filter_app, maybeFireCbs_no_sync_call in Hin.
  destruct (controlStep_frame d env) as (_ & _ & Hctrl).
  rewrite Hctrl in Hin. by apply elem_of_nil in Hin.
Qed.

(** A call of the syncer in a cycle is the call on the request popped. *)
Lemma cycle_sync_call d last env d' st evs ci b :
  cycle d last env = Some (d', st, evs) → EvHandleNewTipSet ci b ∈ evs →
  env_done env = false ∧ b = true ∧
  ∃ tq r tq', pushAll (targetQ d) (gather last env) = Some tq ∧
              TargetQueue_Len tq ≠ 0%nat ∧
              TargetQueue_Pop tq = Some (r, true, tq') ∧
              ci = ChainInfo r ∧ targetQ d' = tq'.
Proof.
  intros Hcycle Hin. destruct (env_done env) eqn:Hdone.
  - unfold cycle in Hcycle. pose proof (maybeFireCbs_events d) as Hevs.
    destruct (maybeFireCbs d) as [d1 evs1]. rewrite Hdone in Hcycle.
    injection Hcycle as <- <- <-. simpl in Hevs. rewrite Hevs in Hin.
    by apply list_elem_of_fmap in Hin as (c & ? & _).
  - split; [done|].
    destruct (cycle_cases d last env Hdone)
      as (tq & Hall & [[Hlen Hc]|(r & tq' & Hlen & Hpop & Hc)]);
      rewrite Hc in Hcycle; injection Hcycle as <- <- <-.
    + by apply not_sync_call_before in Hin.
    + apply elem_of_app in Hin as [Hin|Hin];
        [by apply not_sync_call_before in Hin|].
      apply elem_of_cons in Hin as [Heq|Hin].
      * injection Heq as -> ->. split; [done|]. by exists tq, r, tq'.
      * destruct (env_HandleNewTipSet env (ChainInfo r) true);
          [|by apply elem_of_nil in Hin].
        by apply list_elem_of_singleton in Hin.
Qed.

(** On an empty queue a single request is pushed and popped again. *)
Lemma push_pop_single tq r :
  TargetQueue_inv tq → TargetQueue_Len tq = 0%nat →
  ∃ tq1 r' tq2,
    TargetQueue_Push tq r = Some tq1 ∧ TargetQueue_Len tq1 ≠ 0%nat ∧
    TargetQueue_Pop tq1 = Some (r', true, tq2) ∧
    ChainInfo r' = ChainInfo r ∧ TargetQueue_Len tq2 = 0%nat.
Proof.
  intros Hinv Hlen.
  assert (q tq = []) as Hq by (by apply nil_length_inv).
  assert (reqKey r ∉ targetSet tq) as Hfresh.
  { rewrite (inv_set _ Hinv), Hq. apply not_elem_of_nil. }
  destruct (TargetQueue_Push_fresh tq r Hfresh) as (q1 & Hpush & Hperm1 & _).
  rewrite Hq in Hperm1. simpl in Hperm1. apply Permutation_singleton_r in Hperm1.
  set (tq1 := {| q := q1; targetSet := {[reqKey r]} ∪ targetSet tq |}) in *.
  assert (TargetQueue_Len tq1 ≠ 0%nat) as Hlen1.
  { unfold TargetQueue_Len, rawQueue_Len. simpl.
    by rewrite <-infos_length, Hperm1. }
  destruct (TargetQueue_Pop_nonempty tq1 Hlen1)
    as (r' & q2 & Hpop & _ & Hroot & Hperm2 & _).
  simpl in Hroot, Hperm2. rewrite Hperm1 in Hroot, Hperm2.
  injection Hroot as Hr. rewrite <-Hr in Hperm2.
  apply Permutation_cons_inv, Permutation_nil_l in Hperm2.
  eexists tq1, r', _. split; [done|]. split; [done|]. split; [done|].
  split; [done|]. unfold TargetQueue_Len, rawQueue_Len. simpl.
  by rewrite <-infos_length, <-Hperm2.
Qed.

(** A dispatcher whose queue is empty and that gathers a single request
    syncs that request in the same cycle. *)
Lemma cycle_single d last env r :
  TargetQueue_inv (targetQ d) → TargetQueue_Len (targetQ d) = 0%nat →
  env_done env = false → gather last env = [r] →
  ∃ d' evs,
    cycle d last env = Some (d', Running None, evs) ∧
    filter is_sync_call evs = [EvHandleNewTipSet (ChainInfo r) true] ∧
    syncReqCount d' = wrap64 (syncReqCount d + 1) ∧
    TargetQueue_Len (targetQ d') = 0%nat.
Proof.
  intros Hinv Hlen Hdone Hg.
  destruct (push_pop_single (targetQ d) r Hinv Hlen)
    as (tq1 & r' & tq2 & Hpush & Hlen1 & Hpop & Hr & Hlen2).
  destruct (cycle_cases d last env Hdone)
    as (tq & Hall & [[Hlen' Hc]|(r0 & tq' & _ & Hpop' & Hc)]);
    rewrite Hg in Hall; simpl in Hall; rewrite Hpush in Hall;
    injection Hall as <-; [done|].
  rewrite Hpop in Hpop'. injection Hpop' as <- <-.
  eexists _, _. split; [done|]. simpl. split; [|done].
  rewrite !filter_app, maybeFireCbs_no_sync_call.
  destruct (controlStep_frame d env) as (_ & _ & ->). simpl.
  rewrite filter_cons_True by done. rewrite Hr.
  by destruct (env_HandleNewTipSet env (ChainInfo r) true).
Qed.

Lemma cycle_cancelled d last env :
  env_done env = true → cycle d last env = Some (d, Stopped, (maybeFireCbs d).2).
Proof.
  intros Hdone. unfold cycle. pose proof (maybeFireCbs_dispatcher d) as Hd.
  destruct (maybeFireCbs d) as [d1 evs1]. simpl in Hd. by rewrite Hdone, Hd.
Qed.

(** X6: a cycle that finds the context cancelled still calls the callbacks
    that are ready, before it looks at the context, and then returns: it
    receives no control value, gathers and pushes nothing, calls no syncer
    and leaves the dispatcher as it was. *)
Theorem X6_cancelled_cycle d last env :
  env_done env = true →
  cycle d last env =
    Some (d, Stopped,
          (λ c, EvCallback (cb c)) <$>
            filter (λ c, fires_at (syncReqCount d) c) (onProcessedCountCbs d)).
Proof.
  intros Hdone. unfold cycle.
  pose proof (maybeFireCbs_dispatcher d) as Hd.
  pose proof (maybeFireCbs_events d) as Hevs.
  destruct (maybeFireCbs d) as [d1 evs1]. simpl in Hd, Hevs.
  by rewrite Hdone, Hd, Hevs.
Qed.

(** X7: a chain info handed to any of the three entry points, which return
    no error, and received by a dispatcher whose queue is empty is synced
    in that very cycle, in catch-up mode, and the queue is empty again
    afterwards. *)
Theorem X7_received_tip_is_synced d ci env :
  TargetQueue_inv (targetQ d) → TargetQueue_Len (targetQ d) = 0%nat →
  env_done env = false →
  env_first env = Some (ReceiveHello ci).1 → env_buffered env = [] →
  ReceiveHello ci = (ReceiveGossipBlock ci) ∧
  ReceiveOwnBlock ci = (ReceiveGossipBlock ci) ∧
  (ReceiveGossipBlock ci).2 = None ∧
  ∃ d' evs,
    cycle d None env = Some (d', Running None, evs) ∧
    filter is_sync_call evs = [EvHandleNewTipSet ci true] ∧
    syncReqCount d' = wrap64 (syncReqCount d + 1) ∧
    TargetQueue_Len (targetQ d') = 0%nat.
Proof.
  intros Hinv Hlen Hdone Hfirst Hbuf. split; [done|]. split; [done|].
  split; [done|].
  apply (cycle_single d None env (ReceiveHello ci).1); [done..|].
  unfold gather. by rewrite Hfirst, Hbuf.
Qed.

(** X8: a dispatcher whose queue is empty and that gathers nothing calls no
    syncer and keeps its counter; the request that ends its wait is not
    pushed in that cycle but kept, and it is the one the next cycle syncs
    when nothing else arrives. *)
Theorem X8_idle_wait_then_dispatch d env1 extra env2 :
  TargetQueue_inv (targetQ d) → TargetQueue_Len (targetQ d) = 0%nat →
  env_done env1 = false → env_first env1 = None → env_extra env1 = Some extra →
  env_done env2 = false → env_first env2 = None →
  ∃ d1 evs1 d2 evs2,
    cycle d None env1 = Some (d1, Running (Some extra), evs1) ∧
    filter is_sync_call evs1 = [] ∧
    syncReqCount d1 = syncReqCount d ∧ targetQ d1 = targetQ d ∧
    cycle d1 (Some extra) env2 = Some (d2, Running None, evs2) ∧
    filter is_sync_call evs2 = [EvHandleNewTipSet (ChainInfo extra) true] ∧
    syncReqCount d2 = wrap64 (syncReqCount d + 1).
Proof.
  intros Hinv Hlen Hdone1 Hfirst1 Hextra Hdone2 Hfirst2.
  destruct (cycle_cases d None env1 Hdone1)
    as (tq & Hall & [[_ Hc]|(r & tq' & Hlen' & _)]);
    unfold gather in Hall; rewrite Hfirst1 in Hall; simpl in Hall;
    injection Hall as <-; [|done].
  rewrite Hextra in Hc.
  destruct (controlStep_frame d env1) as (Hq & Hcount & Hctrl).
  set (d1 := withQueue (controlStep d env1).1 (targetQ d)) in *.
  destruct (cycle_single d1 (Some extra) env2 extra)
    as (d2 & evs2 & Hc2 & Hcalls & Hcount2 & _); [done..| |].
  { unfold gather. by rewrite Hfirst2. }
  eexists d1, _, d2, evs2. split; [done|]. split.
  { by rewrite filter_app, maybeFireCbs_no_sync_call, Hctrl. }
  split; [done|]. split; [done|]. split; [done|]. split; [done|].
  rewrite Hcount2. simpl. by rewrite Hcount.
Qed.

Lemma cycle_count d last env d' st evs :
  cycle d last env = Some (d', st, evs) →
  0 ≤ syncReqCount d < uint64_modulus →
  syncReqCount d' =
    wrap64 (syncReqCount d + Z.of_nat (length (filter is_sync_call evs))).
Proof.
  intros Hcycle Hrange. destruct (env_done env) eqn:Hdone.
  - rewrite cycle_cancelled in Hcycle by done.
    injection Hcycle as <- <- <-.
    rewrite maybeFireCbs_no_sync_call. simpl.
    unfold wrap64. rewrite Z.add_0_r, Z.mod_small; done.
  - destruct (controlStep_frame d env) as (_ & Hcount & Hctrl).
    destruct (cycle_cases d last env Hdone)
      as (tq & Hall & [[Hlen Hc]|(r & tq' & Hlen & Hpop & Hc)]);
      rewrite Hc in Hcycle; injection Hcycle as <- <- <-.
    + rewrite filter_app, maybeFireCbs_no_sync_call, Hctrl. simpl.
      rewrite Hcount. unfold wrap64. rewrite Z.add_0_r, Z.mod_small; done.
    + rewrite !filter_app, maybeFireCbs_no_sync_call, Hctrl. simpl.
      by destruct (env_HandleNewTipSet env (ChainInfo r) true).
Qed.

Lemma wrap64_range x : 0 ≤ wrap64 x < uint64_modulus.
Proof. unfold wrap64. apply Z.mod_pos_bound. by compute. Qed.

Lemma run_cons env envs d last :
  run (env :: envs) d last =
  '(d', st, evs) ← cycle d last env;
  match st with
  | Running last' =>
      '(d'', st', evs') ← run envs d' last'; Some (d'', st', evs ++ evs')
  | _ => Some (d', st, evs)
  end.
Proof. done. Qed.

(** X9: over any number of cycles, the processed counter advances by the
    number of calls made to the syncer, in [uint64] arithmetic. *)
Theorem X9_counter_counts_sync_calls envs d last d' st evs :
  0 ≤ syncReqCount d < uint64_modulus →
  run envs d last = Some (d', st, evs) →
  syncReqCount d' =
    wrap64 (syncReqCount d + Z.of_nat (length (filter is_sync_call evs))).
Proof.
  revert d last d' st evs.
  induction envs as [|env envs IH]; intros d last d' st evs Hrange Hrun.
  - injection Hrun as <- <- <-. simpl.
    unfold wrap64. by rewrite Z.add_0_r, Z.mod_small.
  - rewrite run_cons in Hrun.
    destruct (cycle d last env) as [[[d1 st1] evs1]|] eqn:Hcycle; [|done].
    simpl in Hrun. pose proof (cycle_count _ _ _ _ _ _ Hcycle Hrange) as Hc1.
    destruct st1 as [last1| |];
      [|injection Hrun as <- <- <-; done|injection Hrun as <- <- <-; done].
    destruct (run envs d1 last1) as [[[d2 st2] evs2]|] eqn:Hrest; [|done].
    simpl in Hrun. injection Hrun as <- <- <-.
    rewrite (IH d1 last1 d2 st2 evs2); [|rewrite Hc1; apply wrap64_range|done].
    rewrite Hc1, filter_app, length_app, Nat2Z.inj_add.
    unfold wrap64. rewrite Zplus_mod_idemp_l. f_equal. lia.
Qed.

Lemma controlStep_callbacks d env :
  onProcessedCountCbs d `prefix_of` onProcessedCountCbs (controlStep d env).1.
Proof.
  unfold controlStep. destruct (env_ctrl env) as [[msg|ty]|]; simpl;
    [by apply prefix_app_r|done..].
Qed.

Lemma cycle_callbacks d last env d' st evs :
  cycle d last env = Some (d', st, evs) →
  onProcessedCountCbs d `prefix_of` onProcessedCountCbs d'.
Proof.
  intros Hcycle. destruct (env_done env) eqn:Hdone.
  - rewrite cycle_cancelled in Hcycle by done. by injection Hcycle as <- <- <-.
  - destruct (cycle_cases d last env Hdone)
      as (tq & Hall & [[Hlen Hc]|(r & tq' & Hlen & Hpop & Hc)]);
      rewrite Hc in Hcycle; injection Hcycle as <- <- <-; simpl;
      apply controlStep_callbacks.
Qed.

(** X10: the loop never takes a callback off its list: after any number
    of cycles, the list of pending callbacks begins with the list there
    was, entry for entry. *)
Theorem X10_callbacks_are_never_removed envs d last d' st evs :
  run envs d last = Some (d', st, evs) →
  onProcessedCountCbs d `prefix_of` onProcessedCountCbs d'.
Proof.
  revert d last d' st evs.
  induction envs as [|env envs IH]; intros d last d' st evs Hrun.
  - by injection Hrun as <- <- <-.
  - rewrite run_cons in Hrun.
    destruct (cycle d last env) as [[[d1 st1] evs1]|] eqn:Hcycle; [|done].
    simpl in Hrun. pose proof (cycle_callbacks _ _ _ _ _ _ Hcycle) as Hp1.
    destruct st1 as [last1| |];
      [|injection Hrun as <- <- <-; done|injection Hrun as <- <- <-; done].
    destruct (run envs d1 last1) as [[[d2 st2] evs2]|] eqn:Hrest; [|done].
    simpl in Hrun. injection Hrun as <- <- <-.
    etrans; [exact Hp1|]. by eapply IH.
Qed.

Lemma cycle_inv d last env d' st evs :
  cycle d last env = Some (d', st, evs) →
  TargetQueue_inv (targetQ d) → TargetQueue_inv (targetQ d').
Proof.
  intros Hcycle Hinv. destruct (env_done env) eqn:Hdone.
  - rewrite cycle_cancelled in Hcycle by done. by injection Hcycle as <- <- <-.
  - destruct (pushAll_inv (gather last env) (targetQ d)) as (tq0 & Hall0 & Hinv0).
    destruct (cycle_cases d last env Hdone)
      as (tq & Hall & [[Hlen Hc]|(r & tq' & Hlen & Hpop & Hc)]);
      rewrite Hc in Hcycle; injection Hcycle as <- <- <-; simpl;
      rewrite Hall0 in Hall; injection Hall as <-.
    + by apply Hinv0.
    + eapply TargetQueue_inv_pop; [by apply Hinv0|done].
Qed.

(** X11: over any number of cycles that the loop completes, it keeps the
    invariant of the target queue: a heap, with pairwise different keys,
    in step with the membership set. *)
Theorem X11_loop_keeps_queue_invariant envs d last d' st evs :
  TargetQueue_inv (targetQ d) →
  run envs d last = Some (d', st, evs) →
  TargetQueue_inv (targetQ d').
Proof.
  revert d last d' st evs.
  induction envs as [|env envs IH]; intros d last d' st evs Hinv Hrun.
  - by injection Hrun as <- <- <-.
  - rewrite run_cons in Hrun.
    destruct (cycle d last env) as [[[d1 st1] evs1]|] eqn:Hcycle; [|done].
    simpl in Hrun. pose proof (cycle_inv _ _ _ _ _ _ Hcycle Hinv) as Hinv1.
    destruct st1 as [last1| |];
      [|injection Hrun as <- <- <-; done|injection Hrun as <- <- <-; done].
    destruct (run envs d1 last1) as [[[d2 st2] evs2]|] eqn:Hrest; [|done].
    simpl in Hrun. injection Hrun as <- <- <-. by eapply IH.
Qed.

(** X12: the loop only syncs what was announced to it: every call of the
    syncer in a cycle is in catch-up mode and on the chain info of a
    request that was in the queue or among those gathered in the cycle. *)
Theorem X12_only_announced_tips_are_synced d last env d' st evs ci b :
  cycle d last env = Some (d', st, evs) → EvHandleNewTipSet ci b ∈ evs →
  b = true ∧ (ci ∈ infos (q (targetQ d)) ∨ ci ∈ infos (gather last env)).
Proof.
  intros Hcycle Hin.
  destruct (cycle_sync_call _ _ _ _ _ _ _ _ Hcycle Hin)
    as (_ & -> & tq & r & tq' & Hall & Hlen & Hpop & -> & _).
  split; [done|]. apply (proj2 (pushAll_infos _ _ _ Hall)).
  destruct (TargetQueue_Pop_nonempty tq Hlen) as (r' & q' & Hpop' & _ & Hroot & _).
  rewrite Hpop in Hpop'. injection Hpop' as <- _.
  by eapply list_elem_of_lookup_2.
Qed.

(** X13: no request gathered in a cycle is lost: after the cycle its key is
    the key of an entry of the queue, or of the chain info that the cycle
    has synced. *)
Theorem X13_gathered_requests_are_kept d last env d' st evs r :
  TargetQueue_inv (targetQ d) → env_done env = false →
  cycle d last env = Some (d', st, evs) → r ∈ gather last env →
  (∃ x, x ∈ infos (q (targetQ d')) ∧ infoKey x = reqKey r) ∨
  (∃ ci, EvHandleNewTipSet ci true ∈ evs ∧ infoKey ci = reqKey r).
Proof.
  intros Hinv Hdone Hcycle Hr.
  pose proof (cycle_inv _ _ _ _ _ _ Hcycle Hinv) as Hinv'.
  assert (∀ k, k ∈ targetSet (targetQ d') →
               ∃ x, x ∈ infos (q (targetQ d')) ∧ infoKey x = k) as Hentry.
  { intros k Hk. apply (inv_set _ Hinv') in Hk. rewrite keys_infos in Hk.
    apply list_elem_of_fmap in Hk as (x & -> & Hx). by exists x. }
  destruct (cycle_cases d last env Hdone)
    as (tq & Hall & [[Hlen Hc]|(r0 & tq' & Hlen & Hpop & Hc)]);
    rewrite Hc in Hcycle; injection Hcycle as <- <- <-; simpl in *.
  - left. apply Hentry. rewrite (pushAll_set _ _ _ Hall), elem_of_union.
    right. apply elem_of_list_to_set. by apply (list_elem_of_fmap_2 reqKey).
  - destruct (decide (reqKey r = reqKey r0)) as [Heq|Hne].
    + right. exists (ChainInfo r0). split; [|done].
      rewrite !elem_of_app. right. left.
    + left. apply Hentry.
      destruct (TargetQueue_Pop_nonempty tq Hlen) as (r' & q' & Hpop' & _).
      rewrite Hpop in Hpop'. injection Hpop' as <- ->. simpl.
      rewrite elem_of_difference, elem_of_singleton. split; [|done].
      rewrite (pushAll_set _ _ _ Hall), elem_of_union.
      right. apply elem_of_list_to_set. by apply (list_elem_of_fmap_2 reqKey).
Qed.

Lemma drainProduced_loop_spec k chan produced :
  drainProduced_loop k chan produced = produced ++ take k chan.
Proof.
  revert chan produced. induction k as [|k IH]; intros chan produced; simpl.
  - by rewrite take_0, app_nil_r.
  - destruct chan as [|next chan]; simpl; [by rewrite app_nil_r|].
    by rewrite IH, <-app_assoc.
Qed.

(** X14: [drainProduced] returns the whole buffer of the production
    channel, oldest value first; so the requests of a cycle are gathered in
    the order of their arrival: the one left by the idle wait, the one
    received first, then the buffered ones. *)
Theorem X14_requests_gathered_in_arrival_order chan last env :
  drainProduced chan = chan ∧
  gather last env =
    option_list last ++
    match env_first env with
    | Some first => first :: env_buffered env
    | None => []
    end.
Proof.
  assert (∀ l, drainProduced l = l) as Hdrain.
  { intros l. unfold drainProduced.
    by rewrite drainProduced_loop_spec, firstn_all. }
  split; [done|]. unfold gather.
  destruct last, (env_first env); simpl; by rewrite ?Hdrain.
Qed.

(** X15: every cycle begins with the callbacks: the ones whose target is
    the value of the processed counter are called first, each once and in
    the order of the list, and nothing else the cycle does is a call of a
    callback. *)
Theorem X15_callbacks_are_called_first d last env d' st evs :
  cycle d last env = Some (d', st, evs) →
  ∃ rest,
    evs = ((λ c, EvCallback (cb c)) <$>
             filter (λ c, fires_at (syncReqCount d) c) (onProcessedCountCbs d))
          ++ rest ∧
    ∀ f, EvCallback f ∉ rest.
Proof.
  intros Hcycle. rewrite <-maybeFireCbs_events.
  assert (∀ f, EvCallback f ∉ (controlStep d env).2) as Hctrl.
  { intros f. unfold controlStep.
    destruct (env_ctrl env) as [[msg|ty]|]; simpl;
      [apply not_elem_of_nil| |apply not_elem_of_nil].
    by intros ?%list_elem_of_singleton. }
  destruct (env_done env) eqn:Hdone.
  - rewrite cycle_cancelled in Hcycle by done. injection Hcycle as <- <- <-.
    exists []. split; [by rewrite app_nil_r|]. intros f. apply not_elem_of_nil.
  - destruct (cycle_cases d last env Hdone)
      as (tq & Hall & [[Hlen Hc]|(r & tq' & Hlen & Hpop & Hc)]);
      rewrite Hc in Hcycle; injection Hcycle as <- <- <-.
    + by eexists.
    + eexists. split; [by rewrite <-app_assoc|].
      intros f [Hin|Hin]%elem_of_app; [by apply (Hctrl f)|].
      apply elem_of_cons in Hin as [?|Hin]; [done|].
      destruct (env_HandleNewTipSet env (ChainInfo r) true);
        [|by apply elem_of_nil in Hin].
      by apply list_elem_of_singleton in Hin.
Qed.

(** X16: the request a cycle syncs is a highest one: its [Height] is at
    least that of every entry that was in the queue and, when the requests
    gathered have pairwise different keys, of every gathered request whose
    key was not in the queue. *)
Theorem X16_cycle_syncs_a_highest_tip d last env d' st evs ci b :
  TargetQueue_inv (targetQ d) →
  cycle d last env = Some (d', st, evs) → EvHandleNewTipSet ci b ∈ evs →
  (∀ x, x ∈ infos (q (targetQ d)) → Height x ≤ Height ci) ∧
  (NoDup (keys (gather last env)) →
   ∀ r, r ∈ gather last env → reqKey r ∉ targetSet (targetQ d) →
        Height (ChainInfo r) ≤ Height ci).
Proof.
  intros Hinv Hcycle Hin.
  destruct (cycle_sync_call _ _ _ _ _ _ _ _ Hcycle Hin)
    as (_ & _ & tq & r0 & tq' & Hall & Hlen & Hpop & -> & _).
  destruct (pushAll_inv (gather last env) (targetQ d)) as (tq0 & Hall0 & Hinv0).
  rewrite Hall in Hall0. injection Hall0 as <-.
  destruct (TargetQueue_Pop_nonempty tq Hlen) as (r' & q' & Hpop' & _ & Hroot & _).
  rewrite Hpop in Hpop'. injection Hpop' as <- _.
  assert (∀ x, x ∈ infos (q tq) → Height x ≤ Height (ChainInfo r0)) as Hmax.
  { intros x [k Hk]%list_elem_of_lookup.
    apply (heap_ordered_root _ _ (inv_heap _ (Hinv0 Hinv)) Hroot k x Hk). }
  split.
  - intros x Hx. by apply Hmax, (proj1 (pushAll_infos _ _ _ Hall)).
  - intros Hnd r Hr Hfresh. by apply Hmax, (pushAll_admits _ _ _ _ Hall).
Qed.

(** ** Registered callbacks over the cycles *)

(** The events of a cycle begin with the calls of [maybeFireCbs]; none of
    the others is a call of a callback. *)
Lemma cycle_events_begin d last env d' st evs :
  cycle d last env = Some (d', st, evs) →
  ∃ rest, evs = (maybeFireCbs d).2 ++ rest ∧ ∀ f, EvCallback f ∉ rest.
Proof.
  intros Hcycle.
  assert (∀ f, EvCallback f ∉ (controlStep d env).2) as Hctrl.
  { intros f. unfold controlStep.
    destruct (env_ctrl env) as [[msg|ty]|]; simpl;
      [apply not_elem_of_nil| |apply not_elem_of_nil].
    by intros ?%list_elem_of_singleton. }
  destruct (env_done env) eqn:Hdone.
  - rewrite cycle_cancelled in Hcycle by done. injection Hcycle as <- <- <-.
    exists []. split; [by rewrite app_nil_r|]. intros f. apply not_elem_of_nil.
  - destruct (cycle_cases d last env Hdone)
      as (tq & Hall & [[Hlen Hc]|(r & tq' & Hlen & Hpop & Hc)]);
      rewrite Hc in Hcycle; injection Hcycle as <- <- <-.
    + by eexists.
    + eexists. split; [by rewrite <-app_assoc|].
      intros f [Hin|Hin]%elem_of_app; [by apply (Hctrl f)|].
      apply elem_of_cons in Hin as [?|Hin]; [done|].
      destruct (env_HandleNewTipSet env (ChainInfo r) true);
        [|by apply elem_of_nil in Hin].
      by apply list_elem_of_singleton in Hin.
Qed.


Lemma cycle_fires d last env d' st evs c :
  cycle d last env = Some (d', st, evs) → c ∈ onProcessedCountCbs d →
  wrap64 (start c + n c) = syncReqCount d → EvCallback (cb c) ∈ evs.
Proof.
  intros Hcycle Hc Ht.
  destruct (cycle_events_begin _ _ _ _ _ _ Hcycle) as (rest & -> & _).
  apply elem_of_app. left. rewrite maybeFireCbs_events.
  apply (list_elem_of_fmap_2 (λ c, EvCallback (cb c))).
  apply list_elem_of_filter. split; [|done].
  apply Is_true_true. by apply bool_decide_eq_true.
Qed.


Lemma cycle_registers d last env d' st evs n0 f :
  env_done env = false → env_ctrl env = Some (RegisterOnProcessedCount n0 f) →
  cycle d last env = Some (d', st, evs) →
  {| cb := f; n := n0; start := syncReqCount d |} ∈ onProcessedCountCbs d'.
Proof.
  intros Hdone Hctrl Hcycle.
  assert ({| cb := f; n := n0; start := syncReqCount d |}
            ∈ onProcessedCountCbs (controlStep d env).1) as Hin.
  { unfold controlStep. rewrite Hctrl. simpl. apply elem_of_app. right. left. }
  destruct (cycle_cases d last env Hdone)
    as (tq & Hall & [[Hlen Hc]|(r & tq' & Hlen & Hpop & Hc)]);
    rewrite Hc in Hcycle; by injection Hcycle as <- <- <-.
Qed.

Lemma run_keeps_entry envs d last d' st evs c :
  run envs d last = Some (d', st, evs) →
  c ∈ onProcessedCountCbs d → c ∈ onProcessedCountCbs d'.
Proof.
  revert d last d' st evs.
  induction envs as [|env envs IH]; intros d last d' st evs Hrun Hc.
  - by injection Hrun as <- <- <-.
  - rewrite run_cons in Hrun.
    destruct (cycle d last env) as [[[d1 st1] evs1]|] eqn:Hcycle; [|done].
    simpl in Hrun.
    assert (c ∈ onProcessedCountCbs d1) as Hc1.
    { destruct (cycle_callbacks _ _ _ _ _ _ Hcycle) as [k ->].
      apply elem_of_app. by left. }
    destruct st1 as [last1| |];
      [|injection Hrun as <- <- <-; done|injection Hrun as <- <- <-; done].
    destruct (run envs d1 last1) as [[[d2 st2] evs2]|] eqn:Hrest; [|done].
    simpl in Hrun. injection Hrun as <- <- <-. by eapply IH.
Qed.

(** X17: a callback registered with [RegisterOnProcessedCount(n, f)] in a
    cycle that starts at counter value [c] is called at the start of a
    cycle that finds the counter at [c + n] (in [uint64] arithmetic),
    however many cycles lie in between. *)
Theorem X17_registered_callback_is_called_at_target
    d last env0 n0 f envs d' last' evs env :
  env_done env0 = false →
  env_ctrl env0 = Some (RegisterOnProcessedCount n0 f) →
  run (env0 :: envs) d last = Some (d', Running last', evs) →
  syncReqCount d' = wrap64 (syncReqCount d + n0) →
  ∃ d'' st evs', cycle d' last' env = Some (d'', st, evs') ∧
                 EvCallback f ∈ evs'.
Proof.
  intros Hdone Hctrl Hrun Hcount. rewrite run_cons in Hrun.
  destruct (cycle d last env0) as [[[d1 st1] evs1]|] eqn:Hcycle; [|done].
  simpl in Hrun.
  pose proof (cycle_registers _ _ _ _ _ _ _ _ Hdone Hctrl Hcycle) as Hin.
  destruct st1 as [last1| |]; [|done..].
  destruct (run envs d1 last1) as [[[d2 st2] evs2]|] eqn:Hrest; [|done].
  simpl in Hrun. injection Hrun as -> -> <-.
  pose proof (run_keeps_entry _ _ _ _ _ _ _ Hrest Hin) as Hin'.
  destruct (cycle_is_Some d' last' env) as [[[d'' st] evs'] Hnext].
  exists d'', st, evs'. split; [done|].
  by apply (cycle_fires _ _ _ _ _ _ _ Hnext Hin').
Qed.



(** From here on: two tip-set keys with the same [String()] rendering are
    the same key, so that requests with distinct [Head]s have distinct
    entries in the membership set. *)
Hypothesis TipSetKey_String_inj : Inj (=) (=) TipSetKey_String.

Lemma NoDup_heads_keys reqs : NoDup (heads reqs) → NoDup (keys reqs).
Proof.
  intros Hnd. unfold keys, reqKey.
  rewrite (list_fmap_compose (λ r, Head (ChainInfo r)) TipSetKey_String).
  by apply NoDup_fmap_2.
Qed.

(** Pushing requests with pairwise different keys on a new queue and then
    popping as many times empties the queue and returns the requests from
    the highest down. *)
Lemma push_pop_all reqs :
  NoDup (keys reqs) →
  ∃ tq pops tq',
    pushAll NewTargetQueue reqs = Some tq ∧
    TargetQueue_Len tq = length reqs ∧
    popAll (length reqs) tq = Some (pops, tq') ∧
    TargetQueue_inv tq' ∧ TargetQueue_Len tq' = 0%nat ∧
    infos pops ≡ₚ infos reqs ∧ descending (heights pops).
Proof.
  intros Hnd.
  destruct (pushAll_fresh reqs NewTargetQueue TargetQueue_inv_new Hnd)
    as (tq & Hpush & Hinv & Hperm); [set_solver|].
  simpl in Hperm. rewrite app_nil_r in Hperm.
  assert (TargetQueue_Len tq = length reqs) as Hlen.
  { unfold TargetQueue_Len, rawQueue_Len.
    apply Permutation_length in Hperm. by rewrite !infos_length in Hperm. }
  destruct (popAll_spec (length reqs) tq Hinv Hlen)
    as (pops & tq' & Hpop & Hinv' & Hlen' & Hperm' & Hdesc).
  exists tq, pops, tq'. repeat (split; [done|]). split; [|done].
  by rewrite Hperm'.
Qed.

#[local] Instance descending_antisymm : AntiSymm (=) (λ x y : Z, y ≤ x).
Proof. intros x y ? ?. lia. Qed.

(** C4 (as amended): for every sequence of [Push] calls on a new queue
    whose requests have pairwise distinct [Head]s (with distinct
    renderings, [TipSetKey_String_inj]), the queue then has as
    many entries as were pushed, and as many [Pop] calls return exactly the
    pushed requests, in descending [Height] order: each height is at least
    the ones after it, and greater when the pushed heights are pairwise
    distinct.  In particular heights 2, 47, 0, 1 pushed in that order give
    length 4 and pops of heights 47, 2, 1, 0, leaving length 0. *)
Theorem C4_pops_in_descending_height reqs :
  NoDup (heads reqs) →
  ∃ tq pops tq',
    pushAll NewTargetQueue reqs = Some tq ∧
    TargetQueue_Len tq = length reqs ∧
    popAll (length reqs) tq = Some (pops, tq') ∧
    TargetQueue_Len tq' = 0%nat ∧
    infos pops ≡ₚ infos reqs ∧
    descending (heights pops) ∧
    (NoDup (heights reqs) → strictly_descending (heights pops)) ∧
    (heights reqs = [2; 47; 0; 1] →
     TargetQueue_Len tq = 4%nat ∧ heights pops = [47; 2; 1; 0]).
Proof.
  intros Hnd.
  destruct (push_pop_all reqs (NoDup_heads_keys _ Hnd))
    as (tq & pops & tq' & Hpush & Hlen & Hpop & _ & Hlen' & Hperm & Hdesc).
  exists tq, pops, tq'. repeat (split; [done|]).
  assert (heights pops ≡ₚ heights reqs) as Hh.
  { by rewrite !heights_infos, Hperm. }
  split.
  - intros Hnh. apply descending_NoDup; [done|]. by rewrite Hh.
  - intros Heq. split.
    + rewrite Hlen. rewrite <-(length_fmap (λ r, Height (ChainInfo r))).
      fold (heights reqs). by rewrite Heq.
    + apply (StronglySorted_unique (λ x y : Z, y ≤ x)); [done| |].
      * repeat (constructor; [|repeat constructor; lia]). constructor.
      * rewrite Hh, Heq.
        change [47; 2; 1; 0] with ([47] ++ [2] ++ [1] ++ [0]).
        change [2; 47; 0; 1] with ([2] ++ [47] ++ [0] ++ [1]).
        solve_Permutation.
Qed.

(** C10: requests with pairwise distinct [Head]s (with distinct
    renderings, [TipSetKey_String_inj]), pushed on a new queue in any order
    and then popped until the queue is empty, come out as exactly the
    [Head]s pushed: none twice and none missing. *)
Theorem C10_pops_are_the_heads_pushed reqs order :
  NoDup (heads reqs) → order ≡ₚ reqs →
  ∃ tq pops tq',
    pushAll NewTargetQueue order = Some tq ∧
    popAll (TargetQueue_Len tq) tq = Some (pops, tq') ∧
    TargetQueue_Pop tq' = Some (zeroSyncRequest, false, tq') ∧
    length pops = length reqs ∧
    NoDup (heads pops) ∧
    (∀ hd, hd ∈ heads pops ↔ hd ∈ heads reqs).
Proof.
  intros Hnd Hord.
  assert (heads order ≡ₚ heads reqs) as Hheads by (unfold heads; by rewrite Hord).
  rewrite <-Hheads in Hnd.
  destruct (push_pop_all order (NoDup_heads_keys _ Hnd))
    as (tq & pops & tq' & Hpush & Hlen & Hpop & _ & Hlen' & Hperm & _).
  assert (heads pops ≡ₚ heads order) as Hp by (by rewrite !heads_infos, Hperm).
  exists tq, pops, tq'. split; [done|]. split; [by rewrite Hlen|].
  split; [by apply TargetQueue_Pop_empty|]. split; [|split].
  - apply Permutation_length in Hperm. rewrite !infos_length in Hperm.
    rewrite Hperm. by apply Permutation_length.
  - by rewrite Hp.
  - intros hd. by rewrite Hp, Hheads.
Qed.

End Syncer.

(** * A concrete instance

    Tip-set keys that are their own rendering, callbacks named by
    numbers, and a syncer that accepts every tip set. *)

Local Abbreviation req k h := (mkSyncRequest string (mkChainInfo string k h) 0).
Local Abbreviation newQueue := (NewTargetQueue string).
Local Abbreviation push := (TargetQueue_Push string id).
Local Abbreviation pop := (TargetQueue_Pop string id "").
Local Abbreviation syncOk := (λ (_ : block_ChainInfo string) (_ : bool), None).
Local Abbreviation happy := [req "2" 2; req "47" 47; req "0" 0; req "1" 1].

Lemma id_rendering_inj : Inj (=) (=) (@id string).
Proof. intros x y H. exact H. Defined.

Lemma happy_heads_NoDup : NoDup (heads string happy).
Proof. apply (bool_decide_unpack _). vm_compute. exact I. Defined.

(** The scenario of [TestQueueHappy], through C4. *)
Lemma C4_witness :
  NoDup (heads string happy) ∧
  ∃ tq pops tq',
    pushAll string id newQueue happy = Some tq ∧
    TargetQueue_Len string tq = 4%nat ∧
    popAll string id "" 4 tq = Some (pops, tq') ∧
    heights string pops = [47; 2; 1; 0] ∧
    TargetQueue_Len string tq' = 0%nat.
Proof.
  split; [exact happy_heads_NoDup|].
  destruct (C4_pops_in_descending_height string id "" id_rendering_inj
              happy happy_heads_NoDup)
    as (tq & pops & tq' & Hpush & _ & Hpop & Hlen' & _ & _ & _ & Hscen).
  destruct (Hscen eq_refl) as [Hlen Hh].
  exists tq, pops, tq'. repeat split; assumption.
Defined.

(** Two requests with different [Head]s and the same [Height] are popped
    one after the other: the heights popped are not strictly descending. *)
Lemma C4_counterexample :
  ¬ (∀ reqs : list (SyncRequest string),
       NoDup (heads string reqs) →
       ∀ tq pops tq',
         pushAll string id newQueue reqs = Some tq →
         popAll string id "" (length reqs) tq = Some (pops, tq') →
         strictly_descending (heights string pops)).
Proof.
  intros Hclaim.
  assert (NoDup (heads string [req "a" 1; req "b" 1])) as Hnd.
  { apply (bool_decide_unpack _). vm_compute. exact I. }
  specialize (Hclaim [req "a" 1; req "b" 1] Hnd _ _ _ eq_refl eq_refl).
  match type of Hclaim with
  | strictly_descending ?l =>
      let l' := eval vm_compute in l in change l with l' in Hclaim
  end.
  inversion Hclaim as [|x l _ Hall]; subst.
  inversion Hall as [|y l' Hlt _]; subst. lia.
Qed.

Local Abbreviation oneA :=
  (mkTargetQueue string [req "a" 1] ({["a"]} ∪ ∅)).

Lemma oneA_reachable : reachable string id "" oneA.
Proof.
  apply (reachable_push string id "" newQueue (req "a" 1)).
  - apply reachable_new.
  - vm_compute. reflexivity.
Defined.

(** C5 on the queue that holds one request. *)
Lemma C5_witness :
  reachable string id "" oneA ∧
  length (q string oneA) = size (targetSet string oneA) ∧
  (∀ i j a b, q string oneA !! i = Some a → q string oneA !! j = Some b →
              Head string (ChainInfo string a) = Head string (ChainInfo string b) →
              i = j).
Proof.
  split; [exact oneA_reachable|].
  exact (C5_heap_and_set_in_lockstep string id "" oneA oneA_reachable).
Defined.

(** The scenario of [TestQueueDuplicates], through C6. *)
Lemma C6_witness :
  ∃ tq1 r tq2 tq3,
    push newQueue (req "0" 0) = Some tq1 ∧ TargetQueue_Len string tq1 = 1%nat ∧
    push tq1 (req "0" 0) = Some tq1 ∧
    pop tq1 = Some (r, true, tq2) ∧
    ChainInfo string r = mkChainInfo string "0" 0 ∧
    TargetQueue_Len string tq2 = 0%nat ∧
    push tq2 (req "0" 0) = Some tq3 ∧ TargetQueue_Len string tq3 = 1%nat.
Proof.
  exact (C6_duplicate_dropped_then_readmitted string id ""
           (req "0" 0) (req "0" 0) (req "0" 0) eq_refl eq_refl).
Defined.

(** C7 on the queue that holds one request, and on the new queue. *)
Lemma C7_witness :
  pop newQueue = Some (zeroSyncRequest string "", false, newQueue) ∧
  ∃ r tq', pop oneA = Some (r, true, tq') ∧
           ChainInfo string r = mkChainInfo string "a" 1 ∧
           TargetQueue_Len string tq' = 0%nat.
Proof.
  split.
  - exact (proj1 (C7_pop_empty_or_highest string id "" newQueue) eq_refl).
  - destruct (proj2 (C7_pop_empty_or_highest string id "" oneA) oneA_reachable)
      as (r & tq' & Hpop & Hin & _ & _ & Hlen & _).
    + discriminate.
    + exists r, tq'. split; [exact Hpop|]. split.
      * apply list_elem_of_singleton in Hin. exact Hin.
      * injection Hlen as <-. reflexivity.
Defined.

(** C10 on the requests of [TestQueueHappy], pushed in reverse. *)
Lemma C10_witness :
  ∃ pops : list (SyncRequest string),
    length pops = 4%nat ∧ NoDup (heads string pops) ∧
    (∀ hd, hd ∈ heads string pops ↔ hd ∈ ["2"; "47"; "0"; "1"]).
Proof.
  destruct (C10_pops_are_the_heads_pushed string id "" id_rendering_inj
              happy (reverse happy) happy_heads_NoDup)
    as (tq & pops & tq' & _ & _ & _ & Hlen & Hnd & Hall).
  - apply reverse_Permutation.
  - exists pops. repeat split; try assumption; apply Hall.
Defined.

(** A dispatcher with one pending callback, registered at count 0 for
    one more request, when [count] requests have been processed. *)
Local Abbreviation pendingAt count :=
  (mkDispatcher string nat newQueue [mkOnProcessedCountCb nat 7%nat 1 0] count).

(** C2 fails on the code.  A callback is registered for zero more
    requests in a cycle that also syncs a request: its baseline, and so its
    target, is 0, and the counter is 1 at the next check.  The counter has
    passed the target, yet the check, which tests equality, finds no entry
    ready: the callback is called neither then nor after the next two
    requests, and with the counter at 3 the entry, still pending, is not
    recorded as ready. *)
Theorem C2_passed_target_is_not_ready :
  let register :=
    mkCycleEnv string nat false (Some (RegisterOnProcessedCount nat 0 7%nat))
      (Some (req "a" 1)) [] syncOk None in
  let next r := mkCycleEnv string nat false None (Some r) [] syncOk None in
  (λ r, (syncReqCount string nat r.1.1,
         onProcessedCountCbs string nat r.1.1,
         r.2,
         (maybeFireCbs_loop string nat (syncReqCount string nat r.1.1) 0
            (onProcessedCountCbs string nat r.1.1) [] []).1)) <$>
    run string id nat "" [register; next (req "b" 2); next (req "c" 3)]
      (NewDispatcher string nat) None =
  Some (3,
        [mkOnProcessedCountCb nat 7%nat 0 0],
        [EvHandleNewTipSet string nat (mkChainInfo string "a" 1) true;
         EvHandleNewTipSet string nat (mkChainInfo string "b" 2) true;
         EvHandleNewTipSet string nat (mkChainInfo string "c" 3) true],
        []).
Proof. vm_compute. reflexivity. Qed.

(** C3 on that dispatcher when one request has been processed. *)
Lemma C3_witness :
  (maybeFireCbs string nat (pendingAt 1)).2 = [EvCallback string nat 7%nat] ∧
  onProcessedCountCbs string nat (maybeFireCbs string nat (pendingAt 1)).1 !! 0%nat =
    Some (mkOnProcessedCountCb nat 7%nat 1 0).
Proof.
  split; [reflexivity|].
  destruct (C3_maybeFireCbs_keeps_the_list string nat (pendingAt 1))
    as (_ & _ & Hkeep).
  exact (proj2 (proj2 (Hkeep 0%nat _ eq_refl eq_refl))).
Defined.

(** A cycle in which the producer offers one request and the syncer
    fails. *)
Local Abbreviation oneRequest :=
  (mkCycleEnv string nat false None (Some (req "a" 1)) []
     (λ _ _, Some "no such tipset") None).

(** C8 on that cycle, from the new dispatcher. *)
Lemma C8_witness :
  ∃ d' evs,
    cycle string id nat "" (NewDispatcher string nat) None oneRequest =
      Some (d', Running string None, evs) ∧
    filter (is_sync_call string nat) evs =
      [EvHandleNewTipSet string nat (mkChainInfo string "a" 1) true] ∧
    syncReqCount string nat d' = 1 ∧
    EvLogSyncFailed string nat "no such tipset" ∈ evs.
Proof.
  destruct (C8_one_sync_call_one_increment string id nat ""
              (NewDispatcher string nat) None oneRequest oneA
              (set_index string (-1) (req "a" 1))
              (mkTargetQueue string [] (({["a"]} ∪ ∅) ∖ {["a"]})))
    as (d' & evs & Hcycle & Hcalls & _ & Hcount & _ & Hlog & _).
  - reflexivity.
  - vm_compute. reflexivity.
  - vm_compute. reflexivity.
  - exists d', evs. split; [exact Hcycle|]. split; [exact Hcalls|]. split.
    + apply Hcount. vm_compute. split; [discriminate|reflexivity].
    + apply Hlog. reflexivity.
Defined.

(** A cycle in which the control channel delivers a value of a type the
    dispatcher does not know. *)
Local Abbreviation unknownControl :=
  (mkCycleEnv string nat false (Some (CtrlOther nat "int")) None []
     syncOk None).

(** C9 on that cycle, from the new dispatcher. *)
Lemma C9_witness :
  ∃ d' st evs,
    cycle string id nat "" (NewDispatcher string nat) None unknownControl =
      Some (d', st, evs) ∧
    st ≠ Stopped string ∧
    onProcessedCountCbs string nat d' = [] ∧
    EvLogUnknownControl string nat "int" ∈ evs.
Proof.
  destruct (proj2 (proj2 (C9_control_commands string id nat ""
                            (NewDispatcher string nat)))
              None unknownControl (CtrlOther nat "int") eq_refl eq_refl)
    as (d' & st & evs & Hcycle & Hst & Hcbs & Hevs).
  exists d', st, evs. split; [exact Hcycle|]. split; [exact Hst|].
  split; [exact Hcbs|]. apply Hevs. left.
Defined.

(** C1 fails on the code.  A callback is registered for one more request
    while the first request is on its way; that request is processed; the
    next cycle calls the callback and then waits, the queue being empty,
    until a second request arrives; the cycle after that calls the callback
    a second time, before the second request is processed. *)
Theorem C1_callback_called_twice :
  let register :=
    mkCycleEnv string nat false (Some (RegisterOnProcessedCount nat 1 7%nat))
      (Some (req "a" 1)) [] syncOk None in
  let idle := mkCycleEnv string nat false None None [] syncOk (Some (req "b" 2)) in
  let resume := mkCycleEnv string nat false None None [] syncOk None in
  (λ r, (syncReqCount string nat r.1.1, r.2)) <$>
    run string id nat "" [register; idle; resume] (NewDispatcher string nat) None =
  Some (2, [EvHandleNewTipSet string nat (mkChainInfo string "a" 1) true;
            EvCallback string nat 7%nat;
            EvCallback string nat 7%nat;
            EvHandleNewTipSet string nat (mkChainInfo string "b" 2) true]).
Proof. vm_compute. reflexivity. Qed.

(** ** The further properties on the concrete instance *)

Local Abbreviation infoOf k h := (mkChainInfo string k h).
Local Abbreviation emptied k :=
  (mkTargetQueue string [] (({[k]} ∪ ∅) ∖ {[k]})).
Local Abbreviation newDispatcher := (NewDispatcher string nat).
Local Abbreviation offer r :=
  (mkCycleEnv string nat false None (Some r) [] syncOk None).
Local Abbreviation registering count r :=
  (mkCycleEnv string nat false (Some (RegisterOnProcessedCount nat count 7%nat))
     (Some r) [] syncOk None).
Local Abbreviation quiet := (mkCycleEnv string nat false None None [] syncOk None).
Local Abbreviation cancelled := (mkCycleEnv string nat true None None [] syncOk None).

Lemma oneA_inv : TargetQueue_inv string id oneA.
Proof. exact (reachable_inv string id "" oneA oneA_reachable). Defined.


(** X2 on the queue that holds one request of height 1 and a request of
    height 7. *)
Lemma X2_witness :
  ∃ tq1 r tq2,
    push oneA (req "b" 7) = Some tq1 ∧ pop tq1 = Some (r, true, tq2) ∧
    ChainInfo string r = infoOf "b" 7 ∧
    infos string (q string tq2) ≡ₚ [infoOf "a" 1].
Proof.
  destruct (X2_higher_request_overtakes string id "" oneA (req "b" 7) oneA_inv)
    as (tq1 & r & tq2 & Hpush & Hpop & Hr & Hperm & _).
  - apply (bool_decide_unpack _). vm_compute. exact I.
  - intros x Hx. apply list_elem_of_singleton in Hx. rewrite Hx. simpl. lia.
  - exists tq1, r, tq2. repeat split; assumption.
Defined.

(** X3 on the queue that holds one request. *)
Lemma X3_witness :
  ∃ r tq', pop oneA = Some (r, true, tq') ∧ index string r = -1 ∧
           TargetQueue_Len string tq' = 0%nat.
Proof.
  destruct (X3_Pop_returns_the_root string id "" oneA)
    as (r & tq' & Hpop & Hidx & _ & Hlen & _).
  - discriminate.
  - exists r, tq'. split; [exact Hpop|]. split; [exact Hidx|].
    injection Hlen as <-. reflexivity.
Defined.

(** X5 on a slice of two requests. *)
Lemma X5_witness :
  ∃ h' h'',
    rawQueue_Swap string [req "a" 1; req "b" 2] 0 1 = Some h' ∧
    infos string h' = [infoOf "b" 2; infoOf "a" 1] ∧
    rawQueue_Swap string h' 0 1 = Some h'' ∧
    infos string h'' = [infoOf "a" 1; infoOf "b" 2].
Proof.
  destruct (proj2 (X5_Swap_exchanges string [req "a" 1; req "b" 2] 0 1)
              _ eq_refl) as (_ & _ & _ & _ & h'' & Hs & Hi).
  eexists _, h''. split; [reflexivity|]. split; [reflexivity|].
  split; [exact Hs|exact Hi].
Defined.

(** X6 on a dispatcher whose callback is ready. *)
Lemma X6_witness :
  cycle string id nat "" (pendingAt 1) None cancelled =
  Some (pendingAt 1, Stopped string, [EvCallback string nat 7%nat]).
Proof.
  exact (X6_cancelled_cycle string id nat "" (pendingAt 1) None cancelled eq_refl).
Defined.

(** X7 on the new dispatcher. *)
Lemma X7_witness :
  ∃ d' evs,
    cycle string id nat "" newDispatcher None (offer (req "a" 1)) =
      Some (d', Running string None, evs) ∧
    filter (is_sync_call string nat) evs =
      [EvHandleNewTipSet string nat (infoOf "a" 1) true] ∧
    TargetQueue_Len string (targetQ string nat d') = 0%nat.
Proof.
  destruct (X7_received_tip_is_synced string id nat "" newDispatcher
              (infoOf "a" 1) (offer (req "a" 1))
              (TargetQueue_inv_new string id "") eq_refl eq_refl eq_refl eq_refl)
    as (_ & _ & _ & d' & evs & Hcycle & Hcalls & _ & Hlen).
  exists d', evs. repeat split; assumption.
Defined.

(** X8 on the new dispatcher. *)
Lemma X8_witness :
  ∃ d1 evs1 d2 evs2,
    cycle string id nat "" newDispatcher None
      (mkCycleEnv string nat false None None [] syncOk (Some (req "b" 2))) =
      Some (d1, Running string (Some (req "b" 2)), evs1) ∧
    cycle string id nat "" d1 (Some (req "b" 2)) quiet =
      Some (d2, Running string None, evs2) ∧
    filter (is_sync_call string nat) evs2 =
      [EvHandleNewTipSet string nat (infoOf "b" 2) true].
Proof.
  destruct (X8_idle_wait_then_dispatch string id nat "" newDispatcher
              (mkCycleEnv string nat false None None [] syncOk (Some (req "b" 2)))
              (req "b" 2) quiet
              (TargetQueue_inv_new string id "") eq_refl eq_refl eq_refl eq_refl
              eq_refl eq_refl)
    as (d1 & evs1 & d2 & evs2 & Hc1 & _ & _ & _ & Hc2 & Hcalls & _).
  exists d1, evs1, d2, evs2. repeat split; assumption.
Defined.

(** The dispatcher after a cycle that registers callback 7 for [count]
    more requests and syncs the request with key "a". *)
Local Abbreviation registered count :=
  (mkDispatcher string nat (emptied "a") [mkOnProcessedCountCb nat 7%nat count 0] 1).

Lemma registering_cycle count :
  run string id nat "" [registering count (req "a" 1)] newDispatcher None =
  Some (registered count, Running string None,
        [EvHandleNewTipSet string nat (infoOf "a" 1) true]).
Proof. vm_compute. reflexivity. Defined.

(** X9 on that run. *)
Lemma X9_witness :
  syncReqCount string nat (registered 1) =
  wrap64 (0 + Z.of_nat (length (filter (is_sync_call string nat)
                                  [EvHandleNewTipSet string nat (infoOf "a" 1) true]))).
Proof.
  apply (X9_counter_counts_sync_calls string id nat ""
           [registering 1 (req "a" 1)] newDispatcher None
           (registered 1) (Running string None)).
  - vm_compute. split; [discriminate|reflexivity].
  - exact (registering_cycle 1).
Defined.

(** X10 on a cycle of a dispatcher whose pending callback is ready: the
    cycle calls it, receives a second registration and syncs a request;
    the entry called is still the first of the list. *)
Lemma X10_witness :
  ∃ d' st evs,
    run string id nat "" [registering 5 (req "a" 1)] (pendingAt 1) None =
      Some (d', st, evs) ∧
    EvCallback string nat 7%nat ∈ evs ∧
    onProcessedCountCbs string nat d' =
      [mkOnProcessedCountCb nat 7%nat 1 0; mkOnProcessedCountCb nat 7%nat 5 1] ∧
    [mkOnProcessedCountCb nat 7%nat 1 0] `prefix_of` onProcessedCountCbs string nat d'.
Proof.
  destruct (run string id nat "" [registering 5 (req "a" 1)] (pendingAt 1) None)
    as [[[d' st] evs]|] eqn:Hrun; [|vm_compute in Hrun; discriminate].
  pose proof (X10_callbacks_are_never_removed string id nat ""
                [registering 5 (req "a" 1)] (pendingAt 1) None d' st evs Hrun)
    as Hprefix.
  exists d', st, evs. split; [reflexivity|].
  vm_compute in Hrun. injection Hrun as Hd Hst Hevs.
  split; [rewrite <-Hevs; apply list_elem_of_here|].
  split; [rewrite <-Hd; reflexivity|exact Hprefix].
Defined.

(** X11 on a cycle that gathers three requests and syncs the highest: the
    two that stay in the queue form a queue that satisfies the invariant. *)
Lemma X11_witness :
  ∃ d' st evs,
    run string id nat ""
      [mkCycleEnv string nat false None (Some (req "a" 1))
         [req "b" 7; req "c" 3] syncOk None]
      newDispatcher None = Some (d', st, evs) ∧
    TargetQueue_Len string (targetQ string nat d') = 2%nat ∧
    TargetQueue_inv string id (targetQ string nat d').
Proof.
  destruct (run string id nat ""
              [mkCycleEnv string nat false None (Some (req "a" 1))
                 [req "b" 7; req "c" 3] syncOk None]
              newDispatcher None)
    as [[[d' st] evs]|] eqn:Hrun; [|vm_compute in Hrun; discriminate].
  pose proof (X11_loop_keeps_queue_invariant string id nat ""
                [mkCycleEnv string nat false None (Some (req "a" 1))
                   [req "b" 7; req "c" 3] syncOk None]
                newDispatcher None d' st evs
                (TargetQueue_inv_new string id "") Hrun) as Hinv.
  exists d', st, evs. split; [reflexivity|]. split; [|exact Hinv].
  vm_compute in Hrun. injection Hrun as Hd Hst Hevs.
  rewrite <-Hd. reflexivity.
Defined.

Lemma offered_cycle :
  cycle string id nat "" newDispatcher None (offer (req "a" 1)) =
  Some (mkDispatcher string nat (emptied "a") [] 1, Running string None,
        [EvHandleNewTipSet string nat (infoOf "a" 1) true]).
Proof. vm_compute. reflexivity. Defined.

(** X12 on the cycle that is offered one request. *)
Lemma X12_witness :
  true = true ∧
  (infoOf "a" 1 ∈ infos string (q string (targetQ string nat newDispatcher)) ∨
   infoOf "a" 1 ∈ infos string (gather string nat None (offer (req "a" 1)))).
Proof.
  apply (X12_only_announced_tips_are_synced string id nat "" newDispatcher None
           (offer (req "a" 1)) _ _ _ (infoOf "a" 1) true offered_cycle).
  apply list_elem_of_here.
Defined.

(** X13 on that cycle. *)
Lemma X13_witness :
  (∃ x, x ∈ infos string (q string (emptied "a")) ∧
        infoKey string id x = reqKey string id (req "a" 1)) ∨
  (∃ ci, EvHandleNewTipSet string nat ci true ∈
           [EvHandleNewTipSet string nat (infoOf "a" 1) true] ∧
         infoKey string id ci = reqKey string id (req "a" 1)).
Proof.
  apply (X13_gathered_requests_are_kept string id nat "" newDispatcher None
           (offer (req "a" 1)) _ _ _ (req "a" 1)
           (TargetQueue_inv_new string id "") eq_refl offered_cycle).
  apply list_elem_of_here.
Defined.

(** X15 on a cycle of a dispatcher whose callback is ready. *)
Lemma X15_witness :
  ∃ rest,
    [EvCallback string nat 7%nat;
     EvHandleNewTipSet string nat (infoOf "a" 1) true] =
    [EvCallback string nat 7%nat] ++ rest ∧
    ∀ f, EvCallback string nat f ∉ rest.
Proof.
  apply (X15_callbacks_are_called_first string id nat "" (pendingAt 1) None
           (offer (req "a" 1))
           (mkDispatcher string nat (emptied "a")
              [mkOnProcessedCountCb nat 7%nat 1 0] 2)
           (Running string None)).
  vm_compute. reflexivity.
Defined.

(** X16 on a dispatcher whose queue holds a request of height 1 and that
    gathers requests of heights 7 and 3: the one of height 7 is synced. *)
Lemma X16_witness :
  ∃ d' st evs,
    cycle string id nat "" (mkDispatcher string nat oneA [] 1) None
      (mkCycleEnv string nat false None (Some (req "b" 7)) [req "c" 3]
         syncOk None) = Some (d', st, evs) ∧
    EvHandleNewTipSet string nat (infoOf "b" 7) true ∈ evs ∧
    Height string (infoOf "a" 1) ≤ Height string (infoOf "b" 7) ∧
    Height string (ChainInfo string (req "c" 3)) ≤ Height string (infoOf "b" 7).
Proof.
  destruct (cycle string id nat "" (mkDispatcher string nat oneA [] 1) None
              (mkCycleEnv string nat false None (Some (req "b" 7)) [req "c" 3]
                 syncOk None))
    as [[[d' st] evs]|] eqn:Hcycle; [|vm_compute in Hcycle; discriminate].
  assert (EvHandleNewTipSet string nat (infoOf "b" 7) true ∈ evs) as Hin.
  { pose proof Hcycle as Hval. vm_compute in Hval.
    injection Hval as Hd Hst Hevs. rewrite <-Hevs. apply list_elem_of_here. }
  destruct (X16_cycle_syncs_a_highest_tip string id nat ""
              (mkDispatcher string nat oneA [] 1) None
              (mkCycleEnv string nat false None (Some (req "b" 7)) [req "c" 3]
                 syncOk None)
              d' st evs (infoOf "b" 7) true oneA_inv Hcycle Hin)
    as [Hqueued Hgathered].
  exists d', st, evs. split; [reflexivity|]. split; [exact Hin|]. split.
  - apply Hqueued. apply list_elem_of_here.
  - apply Hgathered.
    + apply (bool_decide_unpack _). vm_compute. exact I.
    + apply list_elem_of_further, list_elem_of_here.
    + apply (bool_decide_unpack _). vm_compute. exact I.
Defined.

(** X17: the callback registered for one more request is called by the
    cycle after the one that syncs a request. *)
Lemma X17_witness :
  ∃ d'' st evs',
    cycle string id nat "" (registered 1) None quiet = Some (d'', st, evs') ∧
    EvCallback string nat 7%nat ∈ evs'.
Proof.
  apply (X17_registered_callback_is_called_at_target string id nat ""
           newDispatcher None (registering 1 (req "a" 1)) 1 7%nat []
           (registered 1) None _ quiet eq_refl eq_refl (registering_cycle 1)).
  vm_compute. reflexivity.
Defined.


(** X19 on a slice of three requests. *)
Lemma X19_witness :
  ∃ h', heap_Init string [req "a" 1; req "b" 5; req "c" 3] = Some h' ∧
        infos string h' !! 0%nat = Some (infoOf "b" 5).
Proof.
  destruct (X19_heap_Init_builds_a_heap string [req "a" 1; req "b" 5; req "c" 3])
    as (h' & Hinit & _ & _ & _).
  exists h'. split; [exact Hinit|].
  vm_compute in Hinit. injection Hinit as <-. reflexivity.
Defined.

